(** * nodee's ChoreKeeper: a shallow embedding and its verification

    The development follows chorekeeper.cpp function by function.  C++
    [int] is a 32-bit two's complement integer carried in [Z], a
    [std::string] is a [list ascii], a [std::map<int,RunningProcess>] is a
    [gmap Z RunningProcess], the [bool thrashing[8]] member is a
    [list bool] addressed by index, and a [Process *] is an
    [option Process] ([None] is the null pointer).  Exceptions and loops
    that need not terminate are explicit: a thrown [bad_lexical_cast] is a
    constructor of the result type, a loop without a bound takes fuel. *)

From Stdlib Require Import ZArith List Ascii String Bool Lia.
From stdpp Require Import base tactics option list strings gmap.

Import ListNotations.
Local Open Scope Z_scope.

(* ================================================================== *)
(** ** Machine integers *)

Module Int.

Definition INT_MIN : Z := - 2 ^ 31.
Definition INT_MAX : Z := 2 ^ 31 - 1.

(** Two's complement wrap-around of a mathematical integer into [int]. *)
Definition wrap (z : Z) : Z := (z + 2 ^ 31) mod 2 ^ 32 - 2 ^ 31.

Definition fits (z : Z) : Prop := INT_MIN <= z <= INT_MAX.

Definition add (a b : Z) : Z := wrap (a + b).
Definition sub (a b : Z) : Z := wrap (a - b).

End Int.

(* ================================================================== *)
(** ** Characters, boost::tokenizer and boost::lexical_cast<int> *)

Module Text.

Definition code (c : ascii) : Z := Z.of_N (N_of_ascii c).

(** <cctype> in the "C" locale. *)
Definition isdigit (c : ascii) : bool := (48 <=? code c) && (code c <=? 57).

Definition isspace (c : ascii) : bool :=
  (code c =? 32) || ((9 <=? code c) && (code c <=? 13)).

Definition ispunct (c : ascii) : bool :=
  ((33 <=? code c) && (code c <=? 47)) || ((58 <=? code c) && (code c <=? 64))
  || ((91 <=? code c) && (code c <=? 96)) || ((123 <=? code c) && (code c <=? 126)).

(** The token function shared by both separators used in the file: skip
    the dropped delimiters, then collect characters up to the next
    delimiter.  [cur] holds the token being collected, newest character
    first; empty tokens are never produced. *)
Fixpoint split_tokens (delim : ascii -> bool) (cur s : list ascii) : list (list ascii) :=
  match s with
  | [] => match cur with [] => [] | _ => [rev cur] end
  | c :: s' =>
      if delim c
      then match cur with
           | [] => split_tokens delim [] s'
           | _ => rev cur :: split_tokens delim [] s'
           end
      else split_tokens delim (c :: cur) s'
  end.

(** [boost::tokenizer<>]: the default [char_delimiters_separator<char>]
    drops white space and punctuation alike. *)
Definition default_delim (c : ascii) : bool := isspace c || ispunct c.
Definition tokenizer (s : list ascii) : list (list ascii) := split_tokens default_delim [] s.

(** [boost::tokenizer<boost::char_separator<char> >] built from
    [char_separator<char> space( " " )]: only the blank separates. *)
Definition space_delim (c : ascii) : bool := code c =? 32.
Definition space_tokenizer (s : list ascii) : list (list ascii) := split_tokens space_delim [] s.

(** Decimal value of a run of digits, [None] on any other character. *)
Fixpoint digits_value (acc : Z) (s : list ascii) : option Z :=
  match s with
  | [] => Some acc
  | c :: s' => if isdigit c then digits_value (10 * acc + (code c - 48)) s' else None
  end.

(** [boost::lexical_cast<int>]: an optional sign, at least one digit,
    nothing else, and a value that fits [int]; [None] stands for the
    thrown [bad_lexical_cast]. *)
Definition lexical_cast_int (s : list ascii) : option Z :=
  match s with
  | [] => None
  | c :: ds =>
      if (code c =? 45) then
        match ds with
        | [] => None
        | _ => v ← digits_value 0 ds; if v <=? 2 ^ 31 then Some (- v) else None
        end
      else if (code c =? 43) then
        match ds with
        | [] => None
        | _ => v ← digits_value 0 ds; if v <=? Int.INT_MAX then Some v else None
        end
      else v ← digits_value 0 s; if v <=? Int.INT_MAX then Some v else None
  end.

(** A [std::string] literal. *)
Definition str (s : string) : list ascii := list_ascii_of_string s.

End Text.

(* ================================================================== *)
(** ** Results of code that may throw *)

(** Either the value returned or the [boost::bad_lexical_cast] thrown. *)
Inductive result (A : Type) : Type :=
| Returned (a : A)
| bad_lexical_cast.
Arguments Returned {A} a.
Arguments bad_lexical_cast {A}.

#[global] Instance result_ret : MRet result := fun A a => Returned a.

#[global] Instance result_bind : MBind result := fun A B k r =>
  match r with
  | Returned a => k a
  | bad_lexical_cast => bad_lexical_cast
  end.

(** [boost::lexical_cast<int>( tok )] as a step of throwing code. *)
Definition cast_int (tok : list ascii) : result Z :=
  match Text.lexical_cast_int tok with
  | Some v => Returned v
  | None => bad_lexical_cast
  end.

(* ================================================================== *)
(** ** Data *)

(** One parsed /proc/<pid>/stat record. *)
Record RunningProcess : Type := mkRunningProcess {
  pid : Z;
  ppid : Z;
  majflt : Z;
  rss : Z
}.

(** Modelled from the spec: the class [RunningProcess] is declared in
    chorekeeper.h, which is not among the sources.  [RunningProcess()]
    and the entry [operator[]] creates are value-initialised, and the
    spec has absent and unparsed records read as zeros ("write zeros",
    "zeroed fields"): every field is 0. *)
Definition RunningProcess_default : RunningProcess :=
  {| pid := 0; ppid := 0; majflt := 0; rss := 0 |}.

#[global] Instance RunningProcess_inhabited : Inhabited RunningProcess :=
  populate RunningProcess_default.

(** The [ServerSpec] a service was started with. *)
Record ServerSpec : Type := mkServerSpec {
  expectedTypicalMemory : Z;
  expectedPeakMemory : Z;
  value : Z
}.

(** Modelled from the spec: the interface of [Process] (process.h is not
    among the sources).  [setCurrentRss] and [setPageFaults] store what
    [currentRss] and [pageFaults] hold; [recentPageFaults] is what the
    accessor of that name reports to the selection policies. *)
Record Process : Type := mkProcess {
  process_pid : Z;
  spec : ServerSpec;
  currentRss : Z;
  pageFaults : Z;
  recentPageFaults : Z
}.

Definition setCurrentRss (p : Process) (v : Z) : Process :=
  {| process_pid := process_pid p; spec := spec p; currentRss := v;
     pageFaults := pageFaults p; recentPageFaults := recentPageFaults p |}.

Definition setPageFaults (p : Process) (v : Z) : Process :=
  {| process_pid := process_pid p; spec := spec p; currentRss := currentRss p;
     pageFaults := v; recentPageFaults := recentPageFaults p |}.

(* ================================================================== *)
(** ** boost::token_iterator *)

Module TokenIterator.

(** The iterator holds the current token [tok_], whether it is [valid_],
    and the tokens still to come.  Built without assertions, an iterator
    at the end stays at the end when incremented again, and that of a
    [char_separator] tokenizer keeps the token it held last (the empty
    string when there never was one).  Only [readProcVmstat] ever
    dereferences an iterator that may be at the end. *)
Record t : Type := mk {
  tok_ : list ascii;
  valid_ : bool;
  to_come : list (list ascii)
}.

(** [tokens.begin()] *)
Definition begin_ (tokens : list (list ascii)) : t :=
  match tokens with
  | [] => {| tok_ := []; valid_ := false; to_come := [] |}
  | tok :: rest => {| tok_ := tok; valid_ := true; to_come := rest |}
  end.

(** [++i] *)
Definition incr (i : t) : t :=
  match to_come i with
  | [] => {| tok_ := tok_ i; valid_ := false; to_come := [] |}
  | tok :: rest => {| tok_ := tok; valid_ := true; to_come := rest |}
  end.

(** [*i] *)
Definition deref (i : t) : list ascii := tok_ i.

(** [i == tokens.end()] *)
Definition at_end (i : t) : bool := negb (valid_ i).

(** [++i] written [n] times in a row. *)
Fixpoint incr_n (n : nat) (i : t) : t :=
  match n with
  | O => i
  | S m => incr_n m (incr i)
  end.

End TokenIterator.

(* ================================================================== *)
(** ** ChoreKeeper *)

Module ChoreKeeper.

Import TokenIterator.

(** [thrashing[n]] read as an rvalue. *)
Definition slot (thrashing : list bool) (n : nat) : bool := default false (thrashing !! n).

(** The constructor's loop
      [int n = 7; while ( n > 0 ) { thrashing[n] = false; n--; }]. *)
Fixpoint clear_down (n : nat) (thrashing : list bool) : list bool :=
  match n with
  | O => thrashing
  | S m => clear_down m (<[n := false]> thrashing)
  end.

(** [ChoreKeeper::ChoreKeeper]: [memory] is what the eight bytes of the
    member [thrashing] hold when the constructor body starts; the body
    is all that ever initialises them. *)
Definition ChoreKeeper (memory : list bool) : list bool := clear_down 7 memory.

(** [ChoreKeeper::oneBitOfThrashing] *)
Definition oneBitOfThrashing (nr_free_pages pgmajfault pgpgout : Z) : bool :=
  if 5000 <? nr_free_pages then false
  else if 3 <? pgmajfault then true
  else if pgpgout <? 3 then false
  else true.

(** [ChoreKeeper::isThrashing]:
      [int n = 8; while ( n > 0 ) if ( !thrashing[--n] ) return false; return true;] *)
Fixpoint all_below (n : nat) (thrashing : list bool) : bool :=
  match n with
  | O => true
  | S m => if negb (slot thrashing m) then false else all_below m thrashing
  end.

Definition isThrashing (thrashing : list bool) : bool := all_below 8 thrashing.

(** Running a throwing step over the elements of a sequence in order. *)
Fixpoint for_each {A S : Type} (f : S -> A -> result S) (s : S) (l : list A) : result S :=
  match l with
  | [] => Returned s
  | x :: l' => s' ← f s x; for_each f s' l'
  end.

(** The body of the [while ( vmstat )] loop of [readProcVmstat] for one
    line delivered by [getline]; the triple is
    [(nr_free_pages, pgmajfault, pgpgout)]. *)
Definition readProcVmstat_line (counters : Z * Z * Z) (line : list ascii) : result (Z * Z * Z) :=
  match line with
  | [] => Returned counters
  | _ =>
      let i := begin_ (Text.space_tokenizer line) in
      let n := deref i in
      let i := incr i in
      v ← cast_int (deref i);
      let '(nr_free_pages, pgmajfault, pgpgout) := counters in
      let nr_free_pages :=
        if bool_decide (n = Text.str "nr_free_pages") then v else nr_free_pages in
      let pgmajfault := if bool_decide (n = Text.str "pgmajfault") then v else pgmajfault in
      let pgpgout := if bool_decide (n = Text.str "pgpgout") then v else pgpgout in
      Returned (nr_free_pages, pgmajfault, pgpgout)
  end.

(** [ChoreKeeper::readProcVmstat]: [vmstat] is the file as the lines
    [getline] yields (none when the file cannot be opened). *)
Definition readProcVmstat (vmstat : list (list ascii)) : result (Z * Z * Z) :=
  for_each readProcVmstat_line (0, 0, 0) vmstat.

(** The shift loop of [detectThrashing]
      [int n = 7; while ( n > 0 ) { thrashing[n] = thrashing[n-1]; n--; }]. *)
Fixpoint shift_down (n : nat) (thrashing : list bool) : list bool :=
  match n with
  | O => thrashing
  | S m => shift_down m (<[n := slot thrashing m]> thrashing)
  end.

(** [ChoreKeeper::detectThrashing]; [readProcVmstat] comes first, so an
    exception leaves the window as it was. *)
Definition detectThrashing (vmstat : list (list ascii)) (thrashing : list bool)
  : result (list bool) :=
  counters ← readProcVmstat vmstat;
  let '(nr_free_pages, pgmajfault, pgpgout) := counters in
  let thrashing := shift_down 7 thrashing in
  Returned (<[0%nat := oneBitOfThrashing nr_free_pages pgmajfault pgpgout]> thrashing).

(** *** parseProcStat *)

Definition lparen : ascii := "("%char.
Definition rparen : ascii := ")"%char.
Definition backslash : ascii := "\"%char.
Definition zero : ascii := "0"%char.

(** [while ( i < line.length() && line[i] != '(' ) i++;]
    returns the characters before [i] and those from [i] on. *)
Fixpoint find_lparen (line : list ascii) : list ascii * list ascii :=
  match line with
  | [] => ([], [])
  | c :: rest =>
      if bool_decide (c = lparen) then ([], line)
      else let '(before, from) := find_lparen rest in (c :: before, from)
  end.

(** The second loop, run on the characters from [i] on:
      [while ( i < line.length() && line[i] != ')' ) {
          if ( line[i] == '\\' ) line[i++] = '0';
          line[i++] = '0'; }]
    returns the overwritten characters and those from the final [i] on.
    When a backslash is the last character the second store and the
    read that follows address [line[line.length()]] and beyond; no
    character of the string changes there. *)
Fixpoint zero_name (from : list ascii) : list ascii * list ascii :=
  match from with
  | [] => ([], [])
  | c :: rest =>
      if bool_decide (c = rparen) then ([], from)
      else if bool_decide (c = backslash) then
        match rest with
        | [] => ([zero], [])
        | _ :: rest' => let '(zs, tail) := zero_name rest' in (zero :: zero :: zs, tail)
        end
      else let '(zs, tail) := zero_name rest in (zero :: zs, tail)
  end.

(** [if ( line[i] == ')' ) line[i] = '0';] *)
Definition zero_rparen (from : list ascii) : list ascii :=
  match from with
  | c :: rest => if bool_decide (c = rparen) then zero :: rest else from
  | [] => []
  end.

(** The three statements together: the line handed to the tokenizer. *)
Definition hide_filename (line : list ascii) : list ascii :=
  let '(before, from) := find_lparen line in
  let '(zs, tail) := zero_name from in
  before ++ zs ++ zero_rparen tail.

(** [ChoreKeeper::parseProcStat] *)
Definition parseProcStat (line : list ascii) : result RunningProcess :=
  let line := hide_filename line in
  let t := begin_ (Text.tokenizer line) in
  if at_end t then Returned RunningProcess_default else
  r_pid ← cast_int (deref t);
  let t := incr_n 3 t in
  if at_end t then Returned RunningProcess_default else
  r_ppid ← cast_int (deref t);
  let t := incr_n 8 t in
  if at_end t then Returned RunningProcess_default else
  r_majflt ← cast_int (deref t);
  let t := incr t in
  if at_end t then Returned RunningProcess_default else
  cmajflt ← cast_int (deref t);
  let r_majflt := Int.add r_majflt cmajflt in
  let t := incr_n 11 t in
  if at_end t then Returned RunningProcess_default else
  r_rss ← cast_int (deref t);
  Returned {| pid := r_pid; ppid := r_ppid; majflt := r_majflt; rss := r_rss |}.

(** *** scanProcesses *)

(** [observed[k]]: [std::map::operator[]] yields the entry under [k] and
    first creates a default-constructed one when there is none. *)
Definition subscript (observed : gmap Z RunningProcess) (k : Z)
  : gmap Z RunningProcess * RunningProcess :=
  match observed !! k with
  | Some r => (observed, r)
  | None => (<[k := RunningProcess_default]> observed, RunningProcess_default)
  end.

(** The body of the directory loop for one entry whose name ends in a
    character up to '9'; [line] is the first line of its stat file (the
    empty string when the file cannot be read):
      [try { RunningProcess r( parseProcStat( line ) ); observed[r.pid] = r; }
       catch ( boost::bad_lexical_cast ) { }] *)
Definition observe (observed : gmap Z RunningProcess) (line : list ascii)
  : gmap Z RunningProcess :=
  match parseProcStat line with
  | Returned r => <[pid r := r]> observed
  | bad_lexical_cast => observed
  end.

(** The view at the end of the directory loop. *)
Definition sample (stat_lines : list (list ascii)) : gmap Z RunningProcess :=
  fold_left observe stat_lines ∅.

(** The least key of the map that satisfies [p]; a [std::map] iterates
    in ascending key order. *)
Definition least_key (p : Z -> bool) (observed : gmap Z RunningProcess) : option Z :=
  foldr (fun k least =>
           if p k then match least with
                       | None => Some k
                       | Some l => Some (Z.min k l)
                       end
           else least)
        None (map fst (map_to_list observed)).

(** [observed.begin()] and [++i]; an iterator is the key it points to,
    [None] is [observed.end()]. *)
Definition begin_key (observed : gmap Z RunningProcess) : option Z :=
  least_key (fun _ => true) observed.

Definition next_key (observed : gmap Z RunningProcess) (i : Z) : option Z :=
  least_key (fun k => i <? k) observed.

(** [i->second]: the entry the iterator points to, read through the map
    as it is now. *)
Definition second (observed : gmap Z RunningProcess) (i : Z) : RunningProcess :=
  observed !!! i.

(** The ancestry walk
      [while ( mother && observed[mother].ppid && observed[mother].ppid != me )
           mother = observed[mother].ppid;]
    The source has no bound on it: [fuel] counts the evaluations of the
    loop condition and [None] says they were not enough. *)
Fixpoint walk (fuel : nat) (me : Z) (observed : gmap Z RunningProcess) (mother : Z)
  : option (gmap Z RunningProcess * Z) :=
  match fuel with
  | O => None
  | S fuel' =>
      if mother =? 0 then Some (observed, mother)
      else
        let '(observed, m) := subscript observed mother in
        if ppid m =? 0 then Some (observed, mother)
        else
          let '(observed, m) := subscript observed mother in
          if ppid m =? me then Some (observed, mother)
          else
            let '(observed, m) := subscript observed mother in
            walk fuel' me observed (ppid m)
  end.

Definition set_rss (r : RunningProcess) (v : Z) : RunningProcess :=
  {| pid := pid r; ppid := ppid r; majflt := majflt r; rss := v |}.

Definition set_majflt (r : RunningProcess) (v : Z) : RunningProcess :=
  {| pid := pid r; ppid := ppid r; majflt := v; rss := rss r |}.

(** The body of the rollup loop with the iterator at key [i]. *)
Definition rollup_entry (fuel : nat) (me : Z) (observed : gmap Z RunningProcess) (i : Z)
  : option (gmap Z RunningProcess) :=
  '(observed, mother) ← walk fuel me observed (pid (second observed i));
  let '(observed, m) := subscript observed mother in
  if bool_decide (pid m ≠ pid (second observed i)) then
    let '(observed, m) := subscript observed mother in
    let observed := <[mother := set_rss m (Int.add (rss m) (rss (second observed i)))]> observed in
    let '(observed, m) := subscript observed mother in
    let observed :=
      <[mother := set_majflt m (Int.add (majflt m) (majflt (second observed i)))]> observed in
    Some observed
  else Some observed.

(** The rollup loop from iterator [i] on:
      [while ( i != observed.end() ) { ...; ++i; }]
    Entries that [operator[]] creates on the way are entries of the map
    the iterator moves through, so [rounds] bounds the iterations. *)
Fixpoint rollup_from (rounds fuel : nat) (me : Z) (observed : gmap Z RunningProcess)
  (i : option Z) : option (gmap Z RunningProcess) :=
  match i with
  | None => Some observed
  | Some k =>
      match rounds with
      | O => None
      | S rounds' =>
          observed ← rollup_entry fuel me observed k;
          rollup_from rounds' fuel me observed (next_key observed k)
      end
  end.

Definition rollup (rounds fuel : nat) (me : Z) (observed : gmap Z RunningProcess)
  : option (gmap Z RunningProcess) :=
  rollup_from rounds fuel me observed (begin_key observed).

(** The writeback loop over [init.processes()]. *)
Fixpoint writeback (observed : gmap Z RunningProcess) (pl : list Process) : list Process :=
  match pl with
  | [] => []
  | m :: rest =>
      let '(observed, r) := subscript observed (process_pid m) in
      let m := setCurrentRss m (rss r) in
      let '(observed, r) := subscript observed (process_pid m) in
      let m := setPageFaults m (majflt r) in
      m :: writeback observed rest
  end.

(** [ChoreKeeper::scanProcesses]: [stat_lines] is what the directory
    loop reads, [me] is nodee's pid, [pl] is [init.processes()]. *)
Definition scanProcesses (rounds fuel : nat) (stat_lines : list (list ascii)) (me : Z)
  (pl : list Process) : option (list Process) :=
  observed ← rollup rounds fuel me (sample stat_lines);
  Some (writeback observed pl).

(** *** The selection policies *)

(** [!p || over > p->currentRss() - p->spec().expectedPeakMemory()] *)
Definition beats (over : Z) (p : option Process) (excess : Process -> Z) : bool :=
  match p with
  | None => true
  | Some q => excess q <? over
  end.

Definition over_peak (m : Process) : Z :=
  Int.sub (currentRss m) (expectedPeakMemory (spec m)).

Definition over_typical (m : Process) : Z :=
  Int.sub (currentRss m) (expectedTypicalMemory (spec m)).

(** [ChoreKeeper::furthestOverPeak] *)
Definition furthestOverPeak (pl : list Process) : option Process :=
  fold_left (fun p m =>
               let over := over_peak m in
               if (0 <? over) && beats over p over_peak then Some m else p)
            pl None.

(** [ChoreKeeper::furthestOverExpected] *)
Definition furthestOverExpected (pl : list Process) : option Process :=
  fold_left (fun p m =>
               let over := over_typical m in
               if (0 <? over) && beats over p over_typical then Some m else p)
            pl None.

(** [ChoreKeeper::leastValuable] *)
Definition leastValuable (pl : list Process) : option Process :=
  let '(max, min) :=
    fold_left (fun '(max, min) m =>
                 let max := match max with
                            | None => Some m
                            | Some x => if value (spec x) <? value (spec m) then Some m else max
                            end in
                 let min := match min with
                            | None => Some m
                            | Some x => if value (spec m) <? value (spec x) then Some m else min
                            end in
                 (max, min))
              pl (None, None) in
  match min, max with
  | Some x, Some y => if value (spec y) <=? value (spec x) then None else min
  | _, _ => min
  end.

(** One iteration of the loop of [thrashingMost].  The first test reads
    [least], which is null only while [worst] is null as well. *)
Definition thrashingMost_step (wl : option Process * option Process) (m : Process)
  : option Process * option Process :=
  let '(worst, least) := wl in
  let worst :=
    match worst, least with
    | None, _ => Some m
    | Some _, Some l => if recentPageFaults l <? recentPageFaults m then Some m else worst
    | Some _, None => worst
    end in
  let least :=
    match least with
    | None => Some m
    | Some l => if recentPageFaults m <? recentPageFaults l then Some m else least
    end in
  (worst, least).

(** [ChoreKeeper::thrashingMost] *)
Definition thrashingMost (pl : list Process) : option Process :=
  let '(worst, least) := fold_left thrashingMost_step pl (None, None) in
  match worst, least with
  | Some w, Some l => if recentPageFaults w <=? recentPageFaults l then None else worst
  | _, _ => worst
  end.

(** [ChoreKeeper::biggest] *)
Definition biggest (pl : list Process) : option Process :=
  fold_left (fun p m =>
               match p with
               | None => Some m
               | Some q => if currentRss q <? currentRss m then Some m else p
               end)
            pl None.

(** [if ( !jesus ) jesus = policy();] *)
Definition or_else (jesus : option Process) (policy : option Process) : option Process :=
  match jesus with
  | Some _ => jesus
  | None => policy
  end.

(** The five policies in the order [start] tries them. *)
Definition choose (pl : list Process) : option Process :=
  let jesus := furthestOverPeak pl in
  let jesus := or_else jesus (furthestOverExpected pl) in
  let jesus := or_else jesus (thrashingMost pl) in
  let jesus := or_else jesus (leastValuable pl) in
  or_else jesus (biggest pl).

(** *** start *)

(** What one turn of the [while( true )] loop of [start] meets: the
    lines of /proc/vmstat and the managed processes as [scanProcesses]
    leaves them. *)
Record cycle_input : Type := mkCycle {
  vmstat : list (list ascii);
  processes : list Process
}.

(** What one turn does that can be seen from outside: the value of
    [isThrashing()] in its [if] ([None] when the turn never got there)
    and the pid sent signal 9 ([None] when no signal was sent). *)
Record turn : Type := mkTurn {
  sustained : option bool;
  killed : option Z
}.

(** One turn of the loop, from [detectThrashing] on: the window
    afterwards and what the turn did.  A [bad_lexical_cast] from
    [detectThrashing] lands in [catch (...)]: nothing else happens in
    that turn. *)
Definition cycle (thrashing : list bool) (c : cycle_input) : list bool * turn :=
  match detectThrashing (vmstat c) thrashing with
  | bad_lexical_cast => (thrashing, {| sustained := None; killed := None |})
  | Returned thrashing =>
      if isThrashing thrashing then
        match choose (processes c) with
        | Some jesus =>
            (<[0%nat := false]> thrashing,
             {| sustained := Some true; killed := Some (process_pid jesus) |})
        | None => (thrashing, {| sustained := Some true; killed := None |})
        end
      else (thrashing, {| sustained := Some false; killed := None |})
  end.

(** The turns for a sequence of inputs: the final window and what each
    turn did. *)
Fixpoint run (thrashing : list bool) (cs : list cycle_input) : list bool * list turn :=
  match cs with
  | [] => (thrashing, [])
  | c :: cs' =>
      let '(thrashing, t) := cycle thrashing c in
      let '(final, ts) := run thrashing cs' in
      (final, t :: ts)
  end.

End ChoreKeeper.

(* ================================================================== *)
(** * Vocabulary of the specification *)

Import ChoreKeeper.
Import TokenIterator.

(** ** The momentary verdict *)

(** The four rules of the specification, as a table read top down: the
    first rule whose condition holds gives the verdict. *)
Definition verdict_rules (nr_free_pages pgmajfault pgpgout : Z) : list (bool * bool) :=
  [ (5000 <? nr_free_pages, false);
    (3 <? pgmajfault, true);
    (pgpgout <? 3, false) ].

Fixpoint first_rule (rules : list (bool * bool)) (otherwise : bool) : bool :=
  match rules with
  | [] => otherwise
  | (condition, verdict) :: rest => if condition then verdict else first_rule rest otherwise
  end.

Definition reference_verdict (nr_free_pages pgmajfault pgpgout : Z) : bool :=
  first_rule (verdict_rules nr_free_pages pgmajfault pgpgout) true.

(** ** The window *)

(** A window is cooling at depth [k] when one of its slots up to [k]
    holds false. *)
Definition cooling (k : nat) (w : list bool) : Prop :=
  length w = 8%nat /\ exists j, (j <= k)%nat /\ slot w j = false.

(** A turn that kills: the counters say thrashing and one managed
    process is far over its declared peak. *)
Definition thrashing_vmstat : list (list ascii) :=
  [Text.str "nr_free_pages 100"; Text.str "pgmajfault 50"; Text.str "pgpgout 50"].

Definition hog : Process :=
  {| process_pid := 4711;
     spec := {| expectedTypicalMemory := 400; expectedPeakMemory := 500; value := 5 |};
     currentRss := 1000; pageFaults := 0; recentPageFaults := 0 |}.

Definition thrashing_turn : cycle_input :=
  {| vmstat := thrashing_vmstat; processes := [hog] |}.

(** ** The first turns after construction *)

Definition quiet_turn : turn := {| sustained := Some false; killed := None |}.
Definition killing_turn : turn := {| sustained := Some true; killed := Some 4711 |}.

(** The momentary verdict of a turn, when /proc/vmstat could be read. *)
Definition momentary (c : cycle_input) : option bool :=
  match readProcVmstat (vmstat c) with
  | Returned (nr_free_pages, pgmajfault, pgpgout) =>
      Some (oneBitOfThrashing nr_free_pages pgmajfault pgpgout)
  | bad_lexical_cast => None
  end.

(** ** thrashingMost *)

Definition faulting (p faults : Z) : Process :=
  {| process_pid := p;
     spec := {| expectedTypicalMemory := 0; expectedPeakMemory := 0; value := 0 |};
     currentRss := 0; pageFaults := faults; recentPageFaults := faults |}.

(** ** Token iterators and token positions *)

(** The iterator [n] increments after [begin]. *)
Definition position (tokens : list (list ascii)) (n : nat) : TokenIterator.t :=
  match tokens !! n with
  | Some tok => {| tok_ := tok; valid_ := true; to_come := drop (S n) tokens |}
  | None => {| tok_ := default [] (last tokens); valid_ := false; to_come := [] |}
  end.

(** ** parseProcStat through the fields it needs *)

(** What the parser finds at a token position. *)
Inductive field_state : Type :=
| Missing
| Malformed
| Parsed (v : Z).

Definition field (tokens : list (list ascii)) (n : nat) : field_state :=
  match tokens !! n with
  | None => Missing
  | Some tok =>
      match Text.lexical_cast_int tok with
      | None => Malformed
      | Some v => Parsed v
      end
  end.

(** Token positions of pid, ppid, majflt, cmajflt and rss (fields 1, 4,
    12, 13 and 24 of the line). *)
Definition required : list nat := [0; 3; 11; 12; 23]%nat.

(** The first needed field, in parsing order, that is missing or not an
    integer. *)
Fixpoint first_failure (tokens : list (list ascii)) (fields : list nat) : option field_state :=
  match fields with
  | [] => None
  | n :: rest =>
      match field tokens n with
      | Parsed _ => first_failure tokens rest
      | failure => Some failure
      end
  end.

Definition parse_failure (line : list ascii) : option field_state :=
  first_failure (Text.tokenizer (hide_filename line)) required.

Definition field_value (tokens : list (list ascii)) (n : nat) : Z :=
  match field tokens n with
  | Parsed v => v
  | _ => 0
  end.

(** ** readProcVmstat *)

Definition recognized_names : list (list ascii) :=
  [Text.str "nr_free_pages"; Text.str "pgmajfault"; Text.str "pgpgout"].

(** No line of the file has [name] as its first token. *)
Definition unnamed (name : list ascii) (vm : list (list ascii)) : Prop :=
  Forall (fun line => head (Text.space_tokenizer line) <> Some name) vm.

(** ** The ancestry walk *)

(** The walk stops at [k]: the pid is zero, its ppid is zero, or its
    ppid is nodee's pid.  A pid the view does not hold reads as the
    default record, whose ppid is zero. *)
Definition halting (me : Z) (observed : gmap Z RunningProcess) (k : Z) : bool :=
  (k =? 0) || (ppid (observed !!! k) =? 0) || (ppid (observed !!! k) =? me).

(** [k'] is the next pid the walk visits after [k]. *)
Definition parent (me : Z) (observed : gmap Z RunningProcess) (k k' : Z) : Prop :=
  halting me observed k = false /\ k' = ppid (observed !!! k).

(** No pid is its own ancestor along links the walk follows. *)
Definition acyclic (me : Z) (observed : gmap Z RunningProcess) : Prop :=
  forall k, ~ tc (parent me observed) k k.

(** The first [n] pids of the chain that starts at [k]. *)
Fixpoint ancestors (observed : gmap Z RunningProcess) (n : nat) (k : Z) : list Z :=
  match n with
  | O => []
  | S m => k :: ancestors observed m (ppid (observed !!! k))
  end.

(** A sufficient test for acyclicity that can be run: some rank drops
    along every link the walk follows. *)
Definition ranked (me : Z) (rank : Z -> nat) (observed : gmap Z RunningProcess) : bool :=
  forallb (fun '(k, r) =>
             (k =? 0) || (ppid r =? 0) || (ppid r =? me)
             || (rank (ppid r) <? rank k)%nat)
          (map_to_list observed).

(** A view as one scan of /proc yields it: init (pid 1), nodee (pid 20,
    the [me] of the walk), a service (pid 30) and two descendants. *)
Definition family_lines : list (list ascii) :=
  [ Text.str "1 (init) S 0 1 1 0 -1 0 0 0 2 3 0 0 0 0 20 0 1 0 5 4096 40";
    Text.str "20 (nodee) S 1 20 20 0 -1 0 0 0 1 0 0 0 0 0 20 0 1 0 50 4096 300";
    Text.str "30 (java) S 20 30 30 0 -1 0 0 0 10 5 0 0 0 0 20 0 1 0 60 4096 1000";
    Text.str "31 (sh -c run) S 30 30 30 0 -1 0 0 0 4 0 0 0 0 0 20 0 1 0 70 4096 200";
    Text.str "32 (worker) R 31 30 30 0 -1 0 0 0 6 1 0 0 0 0 20 0 1 0 80 4096 50" ].

Definition family_view : gmap Z RunningProcess := sample family_lines.

(** Two records that name each other as parent, as a scan can yield
    them when pids are reused while it runs. *)
Definition cyclic_lines : list (list ascii) :=
  [ Text.str "10 (a) S 11 10 10 0 -1 0 0 0 3 4 0 0 0 0 20 0 1 0 100 4096 25";
    Text.str "11 (b) S 10 10 10 0 -1 0 0 0 1 0 0 0 0 0 20 0 1 0 100 4096 30" ].

Definition cyclic_view : gmap Z RunningProcess := sample cyclic_lines.

(** ** Well-formed stat lines *)

(** The executable name between the parentheses: characters other than
    the right parenthesis and the backslash, and pairs of a backslash
    with the character it escapes. *)
Fixpoint escaped_name (s : list ascii) : bool :=
  match s with
  | [] => true
  | c :: rest =>
      if bool_decide (c = rparen) then false
      else if bool_decide (c = backslash) then
        match rest with
        | [] => false
        | _ :: rest' => escaped_name rest'
        end
      else escaped_name rest
  end.

(** A non-empty run of decimal digits, and the number it writes. *)
Definition number (s : list ascii) : bool :=
  match s with
  | [] => false
  | _ => forallb Text.isdigit s
  end.

Definition decimal (s : list ascii) : Z :=
  fold_left (fun acc c => 10 * acc + (Text.code c - 48)) s 0.

(** A numeric field of the line: digits, with a minus sign before them
    when the kernel prints a negative value. *)
Definition minus : ascii := "-"%char.

Definition unsigned (field : list ascii) : list ascii :=
  match field with
  | c :: ds => if bool_decide (c = minus) then ds else field
  | [] => []
  end.

Definition numeric_field (field : list ascii) : bool := number (unsigned field).

(** The fields of one line: pid, the name as written between the
    parentheses, the state letter, ppid, and the fields from the fifth
    on. *)
Record stat_fields : Type := mkStat {
  f_pid : list ascii;
  f_comm : list ascii;
  f_state : ascii;
  f_ppid : list ascii;
  f_rest : list (list ascii)
}.

Definition blank : ascii := " "%char.

(** The line the kernel prints for these fields. *)
Definition render (f : stat_fields) : list ascii :=
  f_pid f ++ blank :: lparen :: f_comm f ++ rparen :: blank :: f_state f :: blank :: f_ppid f
    ++ concat (map (fun field => blank :: field) (f_rest f)).

(** The field of the line with number [n] (from 5 on) fits [int]. *)
Definition fits_int (f : stat_fields) (n : nat) : bool :=
  match f_rest f !! (n - 5)%nat with
  | Some field => decimal (unsigned field) <=? Int.INT_MAX
  | None => false
  end.

(** A valid line: pid and ppid are numbers that fit [int], the name is
    escaped, the state is a character that is neither white space nor
    punctuation, at least the fields up to the 24th are there and
    numeric, and the three counters the parser reads fit [int]. *)
Definition valid (f : stat_fields) : bool :=
  number (f_pid f) && (decimal (f_pid f) <=? Int.INT_MAX)
  && escaped_name (f_comm f)
  && negb (Text.default_delim (f_state f))
  && number (f_ppid f) && (decimal (f_ppid f) <=? Int.INT_MAX)
  && forallb numeric_field (f_rest f)
  && (20 <=? length (f_rest f))%nat
  && fits_int f 12 && fits_int f 13 && fits_int f 24.

(** *** Tokens of blank-separated words *)

(** What may follow a word: the end of the line or a delimiter. *)
Definition boundary (delim : ascii -> bool) (s : list ascii) : Prop :=
  match s with
  | [] => True
  | c :: _ => delim c = true
  end.

(** *** The tokens of a valid line *)

(** A line whose name holds blanks and an escaped right parenthesis. *)
Definition escaped_line : stat_fields :=
  {| f_pid := Text.str "12";
     f_comm := Text.str "foo \) bar";
     f_state := "S"%char;
     f_ppid := Text.str "7";
     f_rest := map Text.str
                 ["12"; "12"; "0"; "-1"; "4194304"; "100"; "0"; "8"; "9"; "1"; "1"; "0"; "0";
                  "20"; "-5"; "1"; "0"; "300"; "4096"; "25"; "18446744073709551615"]%string |}.

(** ** The rollup *)

(** The pid at which the ancestry chain of [k] ends in the view as
    sampled, found in at most [fuel] links. *)
Fixpoint climb (fuel : nat) (me : Z) (V : gmap Z RunningProcess) (k : Z) : option Z :=
  match fuel with
  | O => None
  | S n => if halting me V k then Some k else climb n me V (ppid (V !!! k))
  end.

(** The attribution root of [k]: a chain without a cycle has at most
    [size V] links. *)
Definition attribution_root (me : Z) (V : gmap Z RunningProcess) (k : Z) : option Z :=
  climb (S (size V)) me V k.

(** [observed[k]] leaves the map with an entry under [k]. *)
Definition touch (observed : gmap Z RunningProcess) (k : Z) : gmap Z RunningProcess :=
  (subscript observed k).1.

(** [observed] has the parent links of the view as sampled. *)
Definition same_links (V observed : gmap Z RunningProcess) : Prop :=
  forall k, pid (observed !!! k) = pid (V !!! k) /\ ppid (observed !!! k) = ppid (V !!! k).

(** *** What the loop has added so far *)

(** What the record of [j] adds to the entry of [m]: its own field when
    [m] is another pid and the chain of [j] ends there. *)
Definition contribution (me : Z) (V : gmap Z RunningProcess) (field : RunningProcess -> Z)
  (m j : Z) : Z :=
  if bool_decide (j <> m /\ attribution_root me V j = Some m) then field (V !!! j) else 0.

Definition attributed (me : Z) (V : gmap Z RunningProcess) (field : RunningProcess -> Z)
  (js : list Z) (m : Z) : Z :=
  foldr (fun j total => contribution me V field m j + total) 0 js.

Definition keys (V : gmap Z RunningProcess) : list Z := map fst (map_to_list V).

(** *** The loop invariant *)

(** The keys the iterator has passed when it stands at [pos]. *)
Definition before (pos : option Z) (k : Z) : bool :=
  match pos with
  | Some c => k <? c
  | None => true
  end.

Definition processed (V : gmap Z RunningProcess) (pos : option Z) : list Z :=
  List.filter (before pos) (keys V).

(** Every key the map can come to hold: a sampled pid, a sampled ppid,
    or zero. *)
Definition universe (V : gmap Z RunningProcess) : list Z :=
  keys V ++ map (fun kr => ppid kr.2) (map_to_list V) ++ [0].

(** What holds of the map [observed] with the iterator at [pos], for
    the view [V] the loop started from: the links are those of [V],
    every entry reads as its sampled value plus what the keys passed
    have added, the sampled keys are still there and no key is outside
    the universe. *)
Record rolled (me : Z) (V observed : gmap Z RunningProcess) (pos : option Z) : Prop :=
mkRolled {
  rolled_links : same_links V observed;
  rolled_rss : forall k,
    rss (observed !!! k)
    = Int.wrap (rss (V !!! k) + attributed me V rss (processed V pos) k);
  rolled_majflt : forall k,
    majflt (observed !!! k)
    = Int.wrap (majflt (V !!! k) + attributed me V majflt (processed V pos) k);
  rolled_keeps : forall k, is_Some (V !! k) -> is_Some (observed !! k);
  rolled_universe : forall k, is_Some (observed !! k) -> k ∈ universe V
}.

(** *** Termination of the loop *)

(** Turns still to come with the iterator at [pos]: one for each key of
    the universe from [pos] on. *)
Definition turns_left (V : gmap Z RunningProcess) (pos : option Z) : nat :=
  match pos with
  | None => 0
  | Some c => S (length (List.filter (fun k => c <? k) (universe V)))
  end.

(** *** The view a scan yields *)

(** Every record is stored under its own pid and holds [int]s. *)
Definition sound_view (observed : gmap Z RunningProcess) : Prop :=
  forall k r, observed !! k = Some r ->
              pid r = k /\ Int.fits (rss r) /\ Int.fits (majflt r).

(** *** The totals written back *)

(** The sampled field of [m] itself plus that of every sampled pid whose
    chain ends at [m]. *)
Definition own_and_descendants (field : RunningProcess -> Z) (me : Z)
  (V : gmap Z RunningProcess) (m : Z) : Z :=
  field (V !!! m) + attributed me V field (keys V) m.

(** What the writeback makes of the managed process [p]: [p'] has its
    pid, and holds the two totals of that pid whenever they are [int]s. *)
Definition totals_written (me : Z) (V : gmap Z RunningProcess) (p p' : Process) : Prop :=
  process_pid p' = process_pid p
  /\ (Int.fits (own_and_descendants rss me V (process_pid p)) ->
      currentRss p' = own_and_descendants rss me V (process_pid p))
  /\ (Int.fits (own_and_descendants majflt me V (process_pid p)) ->
      pageFaults p' = own_and_descendants majflt me V (process_pid p)).

(** The service of the family view and what a scan writes to it. *)
Definition service : Process :=
  {| process_pid := 30;
     spec := {| expectedTypicalMemory := 800; expectedPeakMemory := 1500; value := 3 |};
     currentRss := 0; pageFaults := 0; recentPageFaults := 0 |}.

(** *** When thrashingMost returns null *)

(** What the loop of [thrashingMost] keeps true of [worst] and [least]
    over the processes [seen] so far: both are among them, [least] has
    the fewest page faults, and [worst] has more than [least] or the
    most of all. *)
Definition worst_least (seen : list Process) (w l : Process) : Prop :=
  w ∈ seen /\ l ∈ seen
  /\ (forall q, q ∈ seen -> recentPageFaults l <= recentPageFaults q)
  /\ (recentPageFaults l < recentPageFaults w
      \/ forall q, q ∈ seen -> recentPageFaults q <= recentPageFaults w).

(** *** The turns after a false verdict and after construction *)

Definition calm_turn : cycle_input :=
  {| vmstat := [Text.str "nr_free_pages 6000"; Text.str "pgmajfault 100"; Text.str "pgpgout 100"];
     processes := [hog] |}.

(** ** What the selection policies return *)

(** [w] is the first process of [pl] with the greatest [score]: every
    process before it has less, none after it has more. *)
Definition first_greatest (score : Process -> Z) (pl : list Process) (w : Process) : Prop :=
  exists before after,
    pl = before ++ w :: after
    /\ (forall p, p ∈ before -> score p < score w)
    /\ (forall p, p ∈ after -> score p <= score w).

(** [w] is the first process of [pl] with the least [score]. *)
Definition first_least (score : Process -> Z) (pl : list Process) (w : Process) : Prop :=
  exists before after,
    pl = before ++ w :: after
    /\ (forall p, p ∈ before -> score w < score p)
    /\ (forall p, p ∈ after -> score w <= score p).

(** The value the cloudname users gave the service of a process. *)
Definition worth (p : Process) : Z := value (spec p).

(** ** The turns of the loop *)

(** The [k] most recent slots of a window hold true. *)
Definition streak (k : nat) (w : list bool) : Prop :=
  forall j, (j < k)%nat -> slot w j = true.

(** What a turn leaves in slot 0 of the window: nothing when
    /proc/vmstat could not be read, false after a kill, the momentary
    verdict otherwise. *)
Definition recorded (c : cycle_input) (t : turn) : list bool :=
  match momentary c with
  | None => []
  | Some b => [match killed t with Some _ => false | None => b end]
  end.

(** What a sequence of turns recorded, the most recent first. *)
Fixpoint newest_first (cs : list cycle_input) (ts : list turn) : list bool :=
  match cs, ts with
  | c :: cs, t :: ts => newest_first cs ts ++ recorded c t
  | _, _ => []
  end.

(** ** What the parser can return *)

(** The pid, the ppid and the RSS of a record are non-negative [int]s
    and its major faults are an [int]. *)
Definition unsigned_record (r : RunningProcess) : Prop :=
  0 <= pid r <= Int.INT_MAX /\ 0 <= ppid r <= Int.INT_MAX
  /\ 0 <= rss r <= Int.INT_MAX /\ Int.fits (majflt r).

(** ** Pids the view does not know *)

(** The view holds no record of [k] and no record that names [k] as
    its parent. *)
Definition unseen (V : gmap Z RunningProcess) (k : Z) : Prop :=
  V !! k = None /\ forall k' r, V !! k' = Some r -> ppid r <> k.

(* ================================================================== *)
(** * Verification *)

(** ** Machine integers *)

Lemma wrap_fits (z : Z) : Int.fits z -> Int.wrap z = z.
Proof.
  unfold Int.fits, Int.wrap, Int.INT_MIN, Int.INT_MAX. intros H.
  rewrite Z.mod_small; lia.
Qed.

Lemma wrap_add_l (a b : Z) : Int.wrap (Int.wrap a + b) = Int.wrap (a + b).
Proof.
  unfold Int.wrap. f_equal.
  replace (((a + 2 ^ 31) mod 2 ^ 32 - 2 ^ 31) + b + 2 ^ 31)
    with ((a + 2 ^ 31) mod 2 ^ 32 + b) by lia.
  rewrite Zplus_mod_idemp_l. f_equal. lia.
Qed.

Lemma wrap_add_r (a b : Z) : Int.wrap (a + Int.wrap b) = Int.wrap (a + b).
Proof. rewrite (Z.add_comm a), wrap_add_l. f_equal. lia. Qed.

(** ** The momentary verdict *)

(** C6: for all counter values the verdict of [oneBitOfThrashing] is the
    one the four rules give; it is true exactly when free pages are at
    most 5000 and either more than 3 major faults or at least 3 pages
    written out are reported; with all three counters at zero it is
    false. *)
Theorem oneBitOfThrashing_four_rules (nr_free_pages pgmajfault pgpgout : Z) :
  oneBitOfThrashing nr_free_pages pgmajfault pgpgout
    = reference_verdict nr_free_pages pgmajfault pgpgout
  /\ (oneBitOfThrashing nr_free_pages pgmajfault pgpgout = true
      <-> nr_free_pages <= 5000 /\ (3 < pgmajfault \/ 3 <= pgpgout))
  /\ oneBitOfThrashing 0 0 0 = false.
Proof.
  split; [reflexivity | split; [| reflexivity]].
  unfold oneBitOfThrashing.
  destruct (Z.ltb_spec 5000 nr_free_pages); [split; [discriminate | lia] |].
  destruct (Z.ltb_spec 3 pgmajfault); [split; [lia | reflexivity] |].
  destruct (Z.ltb_spec pgpgout 3); split; try discriminate; try reflexivity; lia.
Qed.

(** ** An empty registry *)

Lemma cycle_empty_registry (thrashing : list bool) (vm : list (list ascii)) :
  killed (snd (cycle thrashing {| vmstat := vm; processes := [] |})) = None.
Proof.
  unfold cycle; simpl.
  destruct (detectThrashing vm thrashing) as [w|]; [| reflexivity].
  destruct (isThrashing w); reflexivity.
Qed.

(** C10: on an empty registry each of the five policies returns null,
    so does their cascade, and no turn of [start] sends a signal,
    whatever the window and the vmstat counters are. *)
Theorem empty_registry_never_kills (thrashing : list bool) (vms : list (list (list ascii))) :
  furthestOverPeak [] = None
  /\ furthestOverExpected [] = None
  /\ thrashingMost [] = None
  /\ leastValuable [] = None
  /\ biggest [] = None
  /\ choose [] = None
  /\ Forall (fun t => killed t = None)
       (snd (run thrashing (map (fun vm => {| vmstat := vm; processes := [] |}) vms))).
Proof.
  repeat split; try reflexivity.
  revert thrashing. induction vms as [|vm vms IH]; intros thrashing; simpl.
  - constructor.
  - pose proof (cycle_empty_registry thrashing vm) as Hk.
    destruct (cycle thrashing _) as [w t]. specialize (IH w).
    destruct (run w _) as [final ts]. simpl in *. constructor; assumption.
Qed.

(** ** The window *)

Lemma detectThrashing_window (vm : list (list ascii)) (w w' : list bool) :
  length w = 8%nat ->
  detectThrashing vm w = Returned w' ->
  exists nr_free_pages pgmajfault pgpgout,
    readProcVmstat vm = Returned (nr_free_pages, pgmajfault, pgpgout)
    /\ w' = oneBitOfThrashing nr_free_pages pgmajfault pgpgout :: take 7 w.
Proof.
  intros Hlen. unfold detectThrashing.
  destruct (readProcVmstat vm) as [[[a b] c]|]; simpl; [| discriminate].
  do 9 (destruct w as [|? w]; try discriminate Hlen).
  intros [= <-]. exists a, b, c. split; reflexivity.
Qed.

Lemma detectThrashing_length (vm : list (list ascii)) (w w' : list bool) :
  length w = 8%nat -> detectThrashing vm w = Returned w' -> length w' = 8%nat.
Proof.
  intros Hlen H. destruct (detectThrashing_window _ _ _ Hlen H) as (a & b & c & _ & ->).
  cbn [length]. rewrite length_take. lia.
Qed.

Lemma slot_shifted (v : bool) (w : list bool) (j : nat) :
  (j < 7)%nat -> slot (v :: take 7 w) (S j) = slot w j.
Proof. intros Hj. unfold slot. simpl. rewrite lookup_take_lt by lia. reflexivity. Qed.

Lemma all_below_slot (n : nat) (w : list bool) :
  all_below n w = true -> forall j, (j < n)%nat -> slot w j = true.
Proof.
  induction n as [|n IH]; simpl; intros H j Hj; [lia |].
  destruct (slot w n) eqn:E; simpl in H; [| discriminate].
  destruct (decide (j = n)) as [->|]; [assumption | apply IH; [assumption | lia]].
Qed.

Lemma isThrashing_false_slot (w : list bool) (j : nat) :
  (j < 8)%nat -> slot w j = false -> isThrashing w = false.
Proof.
  intros Hj Hs. destruct (isThrashing w) eqn:E; [| reflexivity].
  rewrite (all_below_slot 8 w E j Hj) in Hs. discriminate.
Qed.

Lemma cycle_cooling (k : nat) (w w' : list bool) (c : cycle_input) (t : turn) :
  (k < 7)%nat -> cooling k w -> cycle w c = (w', t) ->
  sustained t <> Some true /\ killed t = None /\ cooling (S k) w'.
Proof.
  intros Hk [Hlen (j & Hj & Hs)]. unfold cycle.
  destruct (detectThrashing (vmstat c) w) as [w1|] eqn:E.
  - destruct (detectThrashing_window _ _ _ Hlen E) as (a & b & d & _ & ->).
    assert (Hs' : slot (oneBitOfThrashing a b d :: take 7 w) (S j) = false)
      by (rewrite slot_shifted by lia; exact Hs).
    rewrite (isThrashing_false_slot _ (S j)) by (lia || exact Hs').
    intros [= <- <-]. simpl. repeat split; try discriminate.
    + exact (detectThrashing_length _ _ _ Hlen E).
    + exists (S j). split; [lia | exact Hs'].
  - intros [= <- <-]. simpl. repeat split; try discriminate; try assumption.
    exists j. split; [lia | exact Hs].
Qed.

Lemma run_cooling (later : list cycle_input) (k : nat) (w : list bool) :
  (k + length later <= 7)%nat -> cooling k w ->
  Forall (fun t => sustained t <> Some true /\ killed t = None) (snd (run w later)).
Proof.
  revert k w. induction later as [|c later IH]; intros k w Hk Hc; simpl.
  - constructor.
  - simpl in Hk.
    destruct (cycle w c) as [w1 t] eqn:E.
    destruct (cycle_cooling k w w1 c t ltac:(lia) Hc E) as (Hs & Hkill & Hc').
    specialize (IH (S k) w1 ltac:(lia) Hc').
    destruct (run w1 later) as [final ts]. simpl in *.
    constructor; [split; assumption | assumption].
Qed.

Lemma cycle_kill_cooling (w w' : list bool) (c : cycle_input) (t : turn) :
  length w = 8%nat -> cycle w c = (w', t) -> is_Some (killed t) -> cooling 0 w'.
Proof.
  intros Hlen. unfold cycle.
  destruct (detectThrashing (vmstat c) w) as [w1|] eqn:E.
  - pose proof (detectThrashing_length _ _ _ Hlen E) as Hlen1.
    destruct (isThrashing w1); [destruct (choose (processes c)) |];
      intros [= <- <-] [x Hx]; try discriminate Hx.
    split; [rewrite length_insert; exact Hlen1 |].
    exists 0%nat. split; [lia |].
    destruct w1; [discriminate Hlen1 | reflexivity].
  - intros [= <- <-] [x Hx]. discriminate Hx.
Qed.

(** C2: after a turn in which a kill is issued, in each of the next
    seven turns [isThrashing()] is not true and nothing is killed,
    whatever /proc/vmstat and the registry hold in those turns. *)
Theorem no_kill_for_seven_turns_after_kill
  (w w' : list bool) (c : cycle_input) (t : turn) (later : list cycle_input) :
  length w = 8%nat ->
  cycle w c = (w', t) ->
  is_Some (killed t) ->
  (length later <= 7)%nat ->
  Forall (fun t' => sustained t' <> Some true /\ killed t' = None) (snd (run w' later)).
Proof.
  intros Hlen Hc Hk Hl.
  apply (run_cooling later 0 w'); [lia |].
  exact (cycle_kill_cooling w w' c t Hlen Hc Hk).
Qed.

Lemma no_kill_for_seven_turns_after_kill_witness :
  Forall (fun t' => sustained t' <> Some true /\ killed t' = None)
    (snd (run (fst (cycle (repeat true 8) thrashing_turn)) (repeat thrashing_turn 7))).
Proof.
  apply (no_kill_for_seven_turns_after_kill (repeat true 8)
           (fst (cycle (repeat true 8) thrashing_turn)) thrashing_turn
           (snd (cycle (repeat true 8) thrashing_turn)) (repeat thrashing_turn 7)).
  - reflexivity.
  - apply surjective_pairing.
  - exists 4711. vm_compute. reflexivity.
  - simpl. lia.
Defined.

(** ** The first turns after construction *)

(** C1, at the failing input: the constructor's loop stops before index
    0, so [thrashing[0]] keeps what the memory held.  When that byte is
    non-zero, seven turns with a true momentary verdict fill the window:
    the seventh turn already kills. *)
Theorem kill_in_seventh_turn_after_construction :
  ChoreKeeper (repeat true 8) = true :: repeat false 7
  /\ snd (run (ChoreKeeper (repeat true 8)) (repeat thrashing_turn 7))
     = repeat quiet_turn 6 ++ [killing_turn].
Proof. split; vm_compute; reflexivity. Qed.

(** With a zero byte there the same turns kill in the eighth turn. *)
Lemma kill_in_eighth_turn_after_clean_construction :
  snd (run (ChoreKeeper (repeat false 8)) (repeat thrashing_turn 8))
  = repeat quiet_turn 7 ++ [killing_turn].
Proof. vm_compute. reflexivity. Qed.

Lemma ChoreKeeper_cooling (memory : list bool) :
  length memory = 8%nat -> cooling 1 (ChoreKeeper memory).
Proof.
  intros Hlen. do 9 (destruct memory as [|? memory]; try discriminate Hlen).
  split; [reflexivity |]. exists 1%nat. split; [lia | reflexivity].
Qed.

(** X3: whatever the memory held before construction, the first six
    turns kill nothing. *)
Lemma no_kill_in_first_six_turns (memory : list bool) (cs : list cycle_input) :
  length memory = 8%nat -> (length cs <= 6)%nat ->
  Forall (fun t => sustained t <> Some true /\ killed t = None)
    (snd (run (ChoreKeeper memory) cs)).
Proof.
  intros Hlen Hcs. apply (run_cooling cs 1); [lia |].
  apply ChoreKeeper_cooling, Hlen.
Qed.

Lemma cycle_false_cooling (w w' : list bool) (c : cycle_input) (t : turn) :
  length w = 8%nat -> momentary c = Some false -> cycle w c = (w', t) ->
  cooling 0 w' /\ killed t = None.
Proof.
  intros Hlen Hm. unfold cycle, momentary in *.
  destruct (detectThrashing (vmstat c) w) as [w1|] eqn:E.
  - destruct (detectThrashing_window _ _ _ Hlen E) as (a & b & d & Hr & ->).
    rewrite Hr in Hm. injection Hm as Hm.
    rewrite (isThrashing_false_slot _ 0) by (lia || (rewrite Hm; reflexivity)).
    intros [= <- <-]. repeat split.
    + exact (detectThrashing_length _ _ _ Hlen E).
    + exists 0%nat. split; [lia | rewrite Hm; reflexivity].
  - unfold detectThrashing in E.
    destruct (readProcVmstat (vmstat c)) as [[[a b] d]|]; discriminate.
Qed.

(** X2: a turn whose momentary verdict is false kills nothing, and
    neither do the next seven turns, whatever they meet. *)
Lemma no_kill_for_seven_turns_after_false_verdict
  (w w' : list bool) (c : cycle_input) (t : turn) (later : list cycle_input) :
  length w = 8%nat -> momentary c = Some false -> cycle w c = (w', t) ->
  (length later <= 7)%nat ->
  killed t = None
  /\ Forall (fun t' => sustained t' <> Some true /\ killed t' = None) (snd (run w' later)).
Proof.
  intros Hlen Hm Hc Hl.
  destruct (cycle_false_cooling w w' c t Hlen Hm Hc) as [Hcool Hk].
  split; [exact Hk | apply (run_cooling later 0 w'); [lia | exact Hcool]].
Qed.

(** ** thrashingMost *)

(** C3, at the failing input: each candidate is compared with [least],
    not with [worst], so a later process with fewer page faults than
    the current worst still replaces it.  With 1, 5 and 3 recent page
    faults the process with 3 is returned, not the one with 5. *)
Theorem thrashingMost_returns_last_above_least :
  thrashingMost [faulting 101 1; faulting 102 5; faulting 103 3] = Some (faulting 103 3)
  /\ recentPageFaults (faulting 103 3) < recentPageFaults (faulting 102 5).
Proof. split; [vm_compute; reflexivity | simpl; lia]. Qed.

(** ** Token iterators and token positions *)

Lemma begin_position (tokens : list (list ascii)) : begin_ tokens = position tokens 0.
Proof. destruct tokens; reflexivity. Qed.

Lemma incr_position (tokens : list (list ascii)) (n : nat) :
  incr (position tokens n) = position tokens (S n).
Proof.
  unfold position, incr.
  destruct (tokens !! n) as [tok|] eqn:En; simpl.
  - destruct (tokens !! S n) as [tok'|] eqn:ES.
    + rewrite (drop_S _ _ _ ES). reflexivity.
    + apply lookup_ge_None in ES. rewrite drop_ge by lia.
      f_equal. rewrite last_lookup.
      apply lookup_lt_Some in En as Hlt.
      replace (Nat.pred (length tokens)) with n by lia. rewrite En. reflexivity.
  - apply lookup_ge_None in En.
    rewrite (proj2 (lookup_ge_None tokens (S n))) by lia. reflexivity.
Qed.

Lemma incr_n_position (tokens : list (list ascii)) (k n : nat) :
  incr_n k (position tokens n) = position tokens (n + k).
Proof.
  revert n. induction k as [|k IH]; intros n; simpl.
  - f_equal. lia.
  - rewrite incr_position, IH. f_equal. lia.
Qed.

(** ** parseProcStat through the fields it needs *)

Lemma parseProcStat_fields (line : list ascii) :
  let tokens := Text.tokenizer (hide_filename line) in
  parseProcStat line =
    match parse_failure line with
    | Some Malformed => bad_lexical_cast
    | Some _ => Returned RunningProcess_default
    | None =>
        Returned {| pid := field_value tokens 0;
                    ppid := field_value tokens 3;
                    majflt := Int.add (field_value tokens 11) (field_value tokens 12);
                    rss := field_value tokens 23 |}
    end.
Proof.
  intros tokens. unfold parseProcStat, parse_failure. fold tokens.
  rewrite begin_position.
  repeat (first [rewrite incr_position | rewrite incr_n_position]).
  unfold required, first_failure, field_value, field, position, at_end, deref, cast_int.
  cbn [Nat.add].
  repeat (match goal with
          | |- context [tokens !! ?n] => destruct (tokens !! n) as [?|]; cbn; try reflexivity
          | |- context [Text.lexical_cast_int ?x] =>
              destruct (Text.lexical_cast_int x) as [?|]; cbn; try reflexivity
          end).
Qed.

(** ** Records that fail to parse *)

(** C4, amended: what the directory loop does with a line is decided by
    the first needed field that is missing or malformed.  A malformed
    field throws and nothing is inserted; a missing field makes the
    parser return a default-constructed record, which the loop stores
    under its pid, 0; with all five fields parsed the record is stored
    under its own pid. *)
Theorem observe_by_first_failure (observed : gmap Z RunningProcess) (line : list ascii) :
  match parse_failure line with
  | Some Malformed => observe observed line = observed
  | Some _ => observe observed line = <[0 := RunningProcess_default]> observed
  | None =>
      exists r, parseProcStat line = Returned r /\ observe observed line = <[pid r := r]> observed
  end.
Proof.
  unfold observe. rewrite parseProcStat_fields.
  destruct (parse_failure line) as [[| |v]|]; try reflexivity.
  eexists. split; reflexivity.
Qed.

(** C4 as stated fails on the empty line, which is what [getline]
    delivers when a stat file cannot be read: the tokenizer is exhausted
    before the pid, and yet the view gains an entry with zeroed fields.
    The same happens to a line that stops after the state field. *)
Lemma exhausted_line_inserts_zeroed_entry :
  parse_failure (Text.str "") = Some Missing
  /\ observe ∅ (Text.str "") = {[ 0 := RunningProcess_default ]}
  /\ parse_failure (Text.str "12 (foo) S") = Some Missing
  /\ observe ∅ (Text.str "12 (foo) S") = {[ 0 := RunningProcess_default ]}.
Proof. repeat split; vm_compute; reflexivity. Qed.

(** A malformed pid, by contrast, leaves the view alone. *)
Lemma malformed_line_inserts_nothing :
  parse_failure (Text.str "abc (foo) S 7") = Some Malformed
  /\ observe ∅ (Text.str "abc (foo) S 7") = ∅.
Proof. split; vm_compute; reflexivity. Qed.

(** ** readProcVmstat *)

Lemma for_each_app {A S : Type} (f : S -> A -> result S) (s : S) (l1 l2 : list A) :
  for_each f s (l1 ++ l2) = (s' ← for_each f s l1; for_each f s' l2).
Proof.
  revert s. induction l1 as [|x l1 IH]; intros s; simpl; [reflexivity |].
  destruct (f s x) as [s'|]; simpl; [apply IH | reflexivity].
Qed.

Lemma readProcVmstat_line_bad (counters : Z * Z * Z) (line n v : list ascii)
  (rest : list (list ascii)) :
  Text.space_tokenizer line = n :: v :: rest ->
  Text.lexical_cast_int v = None ->
  readProcVmstat_line counters line = bad_lexical_cast.
Proof.
  intros Htok Hv. unfold readProcVmstat_line.
  destruct line as [|c line]; [discriminate Htok |].
  rewrite Htok. unfold cast_int. simpl. rewrite Hv. reflexivity.
Qed.

Lemma readProcVmstat_line_other (counters : Z * Z * Z) (line n v : list ascii)
  (rest : list (list ascii)) :
  Text.space_tokenizer line = n :: v :: rest ->
  is_Some (Text.lexical_cast_int v) ->
  n ∉ recognized_names ->
  readProcVmstat_line counters line = Returned counters.
Proof.
  intros Htok [x Hv] Hn. unfold readProcVmstat_line.
  destruct line as [|c line]; [discriminate Htok |].
  rewrite Htok. unfold cast_int. simpl. rewrite Hv. simpl.
  destruct counters as [[a b] d].
  unfold recognized_names in Hn.
  rewrite !bool_decide_eq_false_2; [reflexivity | | |];
    intros ->; apply Hn; set_solver.
Qed.

Lemma readProcVmstat_line_name (counters counters' : Z * Z * Z) (line : list ascii) :
  readProcVmstat_line counters line = Returned counters' ->
  (head (Text.space_tokenizer line) <> Some (Text.str "nr_free_pages") ->
   counters'.1.1 = counters.1.1)
  /\ (head (Text.space_tokenizer line) <> Some (Text.str "pgmajfault") ->
      counters'.1.2 = counters.1.2)
  /\ (head (Text.space_tokenizer line) <> Some (Text.str "pgpgout") ->
      counters'.2 = counters.2).
Proof.
  unfold readProcVmstat_line.
  destruct line as [|c line]; [intros [= <-]; repeat split; reflexivity |].
  destruct (Text.space_tokenizer (c :: line)) as [|n toks]; simpl.
  - unfold cast_int. simpl. discriminate.
  - destruct (cast_int _) as [v|]; simpl; [| discriminate].
    destruct counters as [[a b] d]. intros [= <-]. simpl.
    repeat split; intros Hn; rewrite bool_decide_eq_false_2; try reflexivity;
      intros ->; apply Hn; reflexivity.
Qed.

Lemma for_each_unnamed (vm : list (list ascii)) (counters counters' : Z * Z * Z) :
  for_each readProcVmstat_line counters vm = Returned counters' ->
  (unnamed (Text.str "nr_free_pages") vm -> counters'.1.1 = counters.1.1)
  /\ (unnamed (Text.str "pgmajfault") vm -> counters'.1.2 = counters.1.2)
  /\ (unnamed (Text.str "pgpgout") vm -> counters'.2 = counters.2).
Proof.
  revert counters. induction vm as [|line vm IH]; intros counters; simpl.
  - intros [= <-]. repeat split; reflexivity.
  - destruct (readProcVmstat_line counters line) as [c1|] eqn:E; simpl; [| discriminate].
    intros H. destruct (IH c1 H) as (Ha & Hb & Hc).
    destruct (readProcVmstat_line_name _ _ _ E) as (Ha1 & Hb1 & Hc1).
    unfold unnamed.
    repeat split; intros Hu; apply Forall_cons in Hu as [Hl Hu].
    + rewrite Ha, Ha1; auto.
    + rewrite Hb, Hb1; auto.
    + rewrite Hc, Hc1; auto.
Qed.

(** C8, amended: for a line with a name and a value token, a value that
    [lexical_cast<int>] rejects (not an integer, or an integer outside
    the range of [int]) discards the whole sample whether or not the
    name is one of the three; a value that [lexical_cast<int>] accepts
    under another name leaves the result as it is without the line; and
    in every sample that is returned a counter whose name heads no line
    is zero. *)
Theorem readProcVmstat_by_line
  (pre post : list (list ascii)) (line n v : list ascii) (rest : list (list ascii)) :
  Text.space_tokenizer line = n :: v :: rest ->
  (Text.lexical_cast_int v = None ->
   readProcVmstat (pre ++ line :: post) = bad_lexical_cast)
  /\ (is_Some (Text.lexical_cast_int v) -> n ∉ recognized_names ->
      readProcVmstat (pre ++ line :: post) = readProcVmstat (pre ++ post))
  /\ (forall vm nr_free_pages pgmajfault pgpgout,
        readProcVmstat vm = Returned (nr_free_pages, pgmajfault, pgpgout) ->
        (unnamed (Text.str "nr_free_pages") vm -> nr_free_pages = 0)
        /\ (unnamed (Text.str "pgmajfault") vm -> pgmajfault = 0)
        /\ (unnamed (Text.str "pgpgout") vm -> pgpgout = 0)).
Proof.
  intros Htok. unfold readProcVmstat. repeat split.
  - intros Hv. rewrite for_each_app.
    destruct (for_each readProcVmstat_line (0, 0, 0) pre) as [c|]; simpl; [| reflexivity].
    rewrite (readProcVmstat_line_bad _ _ _ _ _ Htok Hv). reflexivity.
  - intros Hv Hn. rewrite !for_each_app.
    destruct (for_each readProcVmstat_line (0, 0, 0) pre) as [c|]; simpl; [| reflexivity].
    rewrite (readProcVmstat_line_other _ _ _ _ _ Htok Hv Hn). reflexivity.
  - intros Hu. destruct (for_each_unnamed _ _ _ H) as (Ha & _). exact (Ha Hu).
  - intros Hu. destruct (for_each_unnamed _ _ _ H) as (_ & Hb & _). exact (Hb Hu).
  - intros Hu. destruct (for_each_unnamed _ _ _ H) as (_ & _ & Hc). exact (Hc Hu).
Qed.

Lemma readProcVmstat_by_line_witness :
  readProcVmstat ([Text.str "nr_free_pages 100"] ++ Text.str "nr_dirty 12"
                    :: [Text.str "pgpgout 7"])
  = readProcVmstat ([Text.str "nr_free_pages 100"] ++ [Text.str "pgpgout 7"])
  /\ readProcVmstat ([Text.str "nr_free_pages 100"] ++ Text.str "nr_dirty 12"
                       :: [Text.str "pgpgout 7"])
     = Returned (100, 0, 7).
Proof.
  destruct (readProcVmstat_by_line [Text.str "nr_free_pages 100"] [Text.str "pgpgout 7"]
              (Text.str "nr_dirty 12") (Text.str "nr_dirty") (Text.str "12") [])
    as (_ & Hother & _).
  - vm_compute. reflexivity.
  - split; [| vm_compute; reflexivity].
    apply Hother.
    + exists 12. vm_compute. reflexivity.
    + intros Hin. apply (bool_decide_pack _) in Hin. vm_compute in Hin. exact Hin.
Defined.

(** C8 as stated fails on a line under a name that is not recognized
    whose value is not an integer: the value is cast before the name is
    looked at, so the line discards the sample. *)
Lemma unrecognized_line_discards_sample :
  Text.space_tokenizer (Text.str "foo bar") = [Text.str "foo"; Text.str "bar"]
  /\ bool_decide (Text.str "foo" ∈ recognized_names) = false
  /\ readProcVmstat [Text.str "nr_free_pages 100"; Text.str "foo bar"] = bad_lexical_cast
  /\ readProcVmstat [Text.str "nr_free_pages 100"] = Returned (100, 0, 0).
Proof. repeat split; vm_compute; reflexivity. Qed.

(** ** The ancestry walk *)

Section Walk.

Variable me : Z.

Lemma lookup_total_Some (observed : gmap Z RunningProcess) (k : Z) (r : RunningProcess) :
  observed !! k = Some r -> observed !!! k = r.
Proof. intros H. unfold lookup_total, map_lookup_total. rewrite H. reflexivity. Qed.

Lemma lookup_total_None (observed : gmap Z RunningProcess) (k : Z) :
  observed !! k = None -> observed !!! k = RunningProcess_default.
Proof. intros H. unfold lookup_total, map_lookup_total. rewrite H. reflexivity. Qed.

Lemma subscript_total (observed : gmap Z RunningProcess) (k : Z) :
  (subscript observed k).2 = observed !!! k.
Proof.
  unfold subscript. destruct (observed !! k) as [r|] eqn:E; simpl.
  - symmetry. apply lookup_total_Some, E.
  - symmetry. apply lookup_total_None, E.
Qed.

Lemma subscript_same_reads (observed : gmap Z RunningProcess) (k x : Z) :
  (subscript observed k).1 !!! x = observed !!! x.
Proof.
  unfold subscript. destruct (observed !! k) as [r|] eqn:E; simpl; [reflexivity |].
  destruct (decide (k = x)) as [->|Hne].
  - rewrite lookup_total_insert_eq. symmetry. apply lookup_total_None, E.
  - rewrite lookup_total_insert_ne by exact Hne. reflexivity.
Qed.

Lemma halting_false_present (observed : gmap Z RunningProcess) (k : Z) :
  halting me observed k = false ->
  exists r, observed !! k = Some r /\ k <> 0 /\ ppid r <> 0 /\ ppid r <> me.
Proof.
  unfold halting. intros H.
  apply orb_false_iff in H as [H Hme]. apply orb_false_iff in H as [Hk Hp].
  destruct (observed !! k) as [r|] eqn:E.
  - rewrite (lookup_total_Some _ _ _ E) in Hp, Hme. exists r. repeat split; lia.
  - rewrite (lookup_total_None _ _ E) in Hp. simpl in Hp. lia.
Qed.

(** One evaluation of the loop condition: either the walk stops at
    [mother], or it moves on in the same map. *)
Lemma walk_unfold (fuel : nat) (observed : gmap Z RunningProcess) (mother : Z) :
  walk (S fuel) me observed mother =
    if halting me observed mother
    then Some (if mother =? 0 then observed else (subscript observed mother).1, mother)
    else walk fuel me observed (ppid (observed !!! mother)).
Proof.
  unfold halting. simpl.
  destruct (mother =? 0) eqn:E0; simpl; [reflexivity |].
  unfold subscript.
  destruct (observed !! mother) as [r|] eqn:E; simpl.
  - rewrite (lookup_total_Some _ _ _ E).
    destruct (ppid r =? 0) eqn:Ep; simpl; [reflexivity |].
    rewrite E. destruct (ppid r =? me) eqn:Em; simpl; [reflexivity |].
    rewrite E. reflexivity.
  - rewrite (lookup_total_None _ _ E). simpl. reflexivity.
Qed.

Lemma ancestors_length (observed : gmap Z RunningProcess) (n : nat) (k : Z) :
  length (ancestors observed n k) = n.
Proof.
  revert k. induction n as [|n IH]; intros k; simpl; [reflexivity |].
  rewrite IH. reflexivity.
Qed.

Lemma walk_None_ancestors (observed : gmap Z RunningProcess) (n : nat) (k : Z) :
  walk n me observed k = None ->
  Forall (fun x => halting me observed x = false) (ancestors observed n k).
Proof.
  revert k. induction n as [|n IH]; intros k; [constructor |].
  rewrite walk_unfold. destruct (halting me observed k) eqn:E; [discriminate |].
  intros H. simpl. constructor; [exact E | apply IH, H].
Qed.

Lemma ancestors_reachable (observed : gmap Z RunningProcess) (n : nat) (k x : Z) :
  halting me observed k = false ->
  Forall (fun y => halting me observed y = false) (ancestors observed n (ppid (observed !!! k))) ->
  x ∈ ancestors observed n (ppid (observed !!! k)) ->
  tc (parent me observed) k x.
Proof.
  revert k. induction n as [|n IH]; intros k Hk Hall Hx; simpl in *.
  - inversion Hx.
  - apply Forall_cons in Hall as [Hp Hall].
    apply elem_of_cons in Hx as [->|Hx].
    + apply tc_once. split; [exact Hk | reflexivity].
    + eapply tc_l; [split; [exact Hk | reflexivity] |].
      apply IH; assumption.
Qed.

Lemma ancestors_NoDup (observed : gmap Z RunningProcess) (n : nat) (k : Z) :
  acyclic me observed ->
  Forall (fun y => halting me observed y = false) (ancestors observed n k) ->
  NoDup (ancestors observed n k).
Proof.
  intros Hacyc. revert k. induction n as [|n IH]; intros k Hall; simpl in *.
  - constructor.
  - apply Forall_cons in Hall as [Hk Hall].
    constructor; [| apply IH, Hall].
    intros Hin. apply (Hacyc k).
    exact (ancestors_reachable observed n k k Hk Hall Hin).
Qed.

Lemma walk_None_bound (observed : gmap Z RunningProcess) (n : nat) (k : Z) :
  acyclic me observed -> walk n me observed k = None -> (n <= size observed)%nat.
Proof.
  intros Hacyc Hnone.
  pose proof (walk_None_ancestors _ _ _ Hnone) as Hall.
  pose proof (ancestors_NoDup _ _ _ Hacyc Hall) as Hnd.
  rewrite <- (ancestors_length observed n k).
  rewrite <- size_dom. unfold size, set_size. simpl.
  apply submseteq_length, NoDup_submseteq; [exact Hnd |].
  intros x Hx. apply elem_of_elements, elem_of_dom.
  rewrite Forall_forall in Hall.
  destruct (halting_false_present _ _ (Hall x Hx)) as (r & Hr & _).
  exists r. exact Hr.
Qed.

Lemma walk_Some_halting (observed observed' : gmap Z RunningProcess) (n : nat) (k mother : Z) :
  walk n me observed k = Some (observed', mother) ->
  halting me observed mother = true /\ forall x, observed' !!! x = observed !!! x.
Proof.
  revert k. induction n as [|n IH]; intros k; [discriminate |].
  rewrite walk_unfold. destruct (halting me observed k) eqn:E; [| apply IH].
  intros [= <- <-]. split; [exact E |].
  intros x. destruct (k =? 0); [reflexivity | apply subscript_same_reads].
Qed.

(** A pid on a cycle is followed by a pid on a cycle. *)
Lemma parent_cycle_step (observed : gmap Z RunningProcess) (k : Z) :
  tc (parent me observed) k k ->
  halting me observed k = false
  /\ tc (parent me observed) (ppid (observed !!! k)) (ppid (observed !!! k)).
Proof.
  intros Hcycle.
  assert (Hfirst : forall a b, tc (parent me observed) a b ->
                               halting me observed a = false
                               /\ rtc (parent me observed) (ppid (observed !!! a)) b).
  { intros a b Hab. destruct Hab as [a b [Ha ->]|a y b [Ha ->] Hrest].
    - split; [exact Ha | apply rtc_refl].
    - split; [exact Ha | apply tc_rtc, Hrest]. }
  destruct (Hfirst k k Hcycle) as [Hk Hback].
  split; [exact Hk |].
  eapply tc_rtc_l; [exact Hback |]. apply tc_once. split; [exact Hk | reflexivity].
Qed.

Lemma walk_on_cycle (observed : gmap Z RunningProcess) (fuel : nat) (k : Z) :
  tc (parent me observed) k k -> walk fuel me observed k = None.
Proof.
  revert k. induction fuel as [|fuel IH]; intros k Hcycle; [reflexivity |].
  destruct (parent_cycle_step observed k Hcycle) as [Hk Hnext].
  rewrite walk_unfold, Hk. apply IH, Hnext.
Qed.

Lemma walk_into_cycle (observed : gmap Z RunningProcess) (k j : Z) :
  rtc (parent me observed) k j -> tc (parent me observed) j j ->
  forall fuel, walk fuel me observed k = None.
Proof.
  induction 1 as [k|k k1 j [Hk ->] _ IH]; intros Hcycle fuel.
  - apply walk_on_cycle, Hcycle.
  - destruct fuel as [|fuel]; [reflexivity |].
    rewrite walk_unfold, Hk. apply IH, Hcycle.
Qed.

(** C9, amended: on a view without a cycle among the links the walk
    follows, the walk from any pid stops within [size observed + 1]
    evaluations of its loop condition, at a pid that satisfies one of
    the three halting conditions, and leaves every entry as it reads.
    From a pid that lies on a cycle of such links, or whose chain of
    links leads to a pid on a cycle, no number of evaluations of the
    loop condition ends the walk. *)
Theorem walk_terminates_on_acyclic_view (observed : gmap Z RunningProcess) (k : Z) :
  (acyclic me observed ->
   exists observed' mother,
     walk (S (size observed)) me observed k = Some (observed', mother)
     /\ halting me observed mother = true
     /\ forall x, observed' !!! x = observed !!! x)
  /\ (forall j, rtc (parent me observed) k j -> tc (parent me observed) j j ->
                forall fuel, walk fuel me observed k = None).
Proof.
  split.
  - intros Hacyc.
    destruct (walk (S (size observed)) me observed k) as [[observed' mother]|] eqn:E.
    + exists observed', mother. split; [reflexivity |].
      exact (walk_Some_halting _ _ _ _ _ E).
    + apply (walk_None_bound _ _ _ Hacyc) in E. lia.
  - intros j Hreach Hcycle. exact (walk_into_cycle observed k j Hreach Hcycle).
Qed.

Lemma ranked_acyclic (rank : Z -> nat) (observed : gmap Z RunningProcess) :
  ranked me rank observed = true -> acyclic me observed.
Proof.
  intros Hr.
  assert (Hstep : forall k k', tc (parent me observed) k k' -> (rank k' < rank k)%nat).
  { intros k k' Htc. induction Htc as [k k' [Hk ->]|k k' k'' [Hk ->] _ IH].
    - destruct (halting_false_present _ _ Hk) as (r & Hlook & H0 & Hp & Hm).
      rewrite (lookup_total_Some _ _ _ Hlook).
      unfold ranked in Hr. rewrite forallb_forall in Hr.
      specialize (Hr (k, r)). simpl in Hr.
      rewrite <- list_elem_of_In, elem_of_map_to_list in Hr. specialize (Hr Hlook).
      destruct (Nat.ltb_spec (rank (ppid r)) (rank k)); [assumption |].
      rewrite orb_false_r in Hr.
      apply orb_true_iff in Hr as [Hr|Hr]; [apply orb_true_iff in Hr as [Hr|Hr] |]; lia.
    - destruct (halting_false_present _ _ Hk) as (r & Hlook & H0 & Hp & Hm).
      rewrite (lookup_total_Some _ _ _ Hlook) in IH.
      unfold ranked in Hr. rewrite forallb_forall in Hr.
      specialize (Hr (k, r)). simpl in Hr.
      rewrite <- list_elem_of_In, elem_of_map_to_list in Hr. specialize (Hr Hlook).
      destruct (Nat.ltb_spec (rank (ppid r)) (rank k)); [lia |].
      rewrite orb_false_r in Hr.
      apply orb_true_iff in Hr as [Hr|Hr]; [apply orb_true_iff in Hr as [Hr|Hr] |]; lia. }
  intros k Htc. specialize (Hstep k k Htc). lia.
Qed.

End Walk.

Lemma walk_terminates_on_acyclic_view_witness :
  (exists observed' mother,
     walk (S (size family_view)) 20 family_view 32 = Some (observed', mother)
     /\ halting 20 family_view mother = true
     /\ forall x, observed' !!! x = family_view !!! x)
  /\ (forall fuel, walk fuel 1 cyclic_view 10 = None).
Proof.
  split.
  - apply (proj1 (walk_terminates_on_acyclic_view 20 family_view 32)).
    apply (ranked_acyclic 20 Z.to_nat).
    vm_compute. reflexivity.
  - apply (proj2 (walk_terminates_on_acyclic_view 1 cyclic_view 10) 11).
    + apply rtc_once. split; vm_compute; reflexivity.
    + eapply tc_l; [| apply tc_once]; split; vm_compute; reflexivity.
Defined.

Lemma walk_cyclic_view (fuel : nat) (k : Z) :
  k = 10 \/ k = 11 -> walk fuel 1 cyclic_view k = None.
Proof.
  revert k. induction fuel as [|fuel IH]; intros k Hk; [reflexivity |].
  rewrite walk_unfold.
  destruct Hk as [->| ->].
  - replace (halting 1 cyclic_view 10) with false by (vm_compute; reflexivity).
    replace (ppid (cyclic_view !!! 10)) with 11 by (vm_compute; reflexivity).
    apply IH. right. reflexivity.
  - replace (halting 1 cyclic_view 11) with false by (vm_compute; reflexivity).
    replace (ppid (cyclic_view !!! 11)) with 10 by (vm_compute; reflexivity).
    apply IH. left. reflexivity.
Qed.

(** C9 as stated fails on a view with a cycle: the walk has no bound
    and no visited set, so from pid 10 no number of evaluations of its
    condition ends it. *)
Lemma walk_diverges_on_cyclic_view :
  cyclic_view = {[ 10 := {| pid := 10; ppid := 11; majflt := 7; rss := 25 |};
                   11 := {| pid := 11; ppid := 10; majflt := 1; rss := 30 |} ]}
  /\ ~ exists fuel, is_Some (walk fuel 1 cyclic_view 10).
Proof.
  split; [vm_compute; reflexivity |].
  intros [fuel [x Hx]]. rewrite walk_cyclic_view in Hx by (left; reflexivity).
  discriminate Hx.
Qed.

(** *** Hiding the name *)

Lemma find_lparen_app (before rest : list ascii) :
  Forall (fun c => c <> lparen) before ->
  find_lparen (before ++ lparen :: rest) = (before, lparen :: rest).
Proof.
  induction 1 as [|c before Hc _ IH]; simpl.
  - reflexivity.
  - rewrite bool_decide_eq_false_2 by exact Hc. rewrite IH. reflexivity.
Qed.

Lemma zero_name_escaped_bounded (n : nat) (name tail : list ascii) :
  (length name <= n)%nat -> escaped_name name = true ->
  zero_name (name ++ rparen :: tail) = (repeat zero (length name), rparen :: tail).
Proof.
  revert name. induction n as [|n IH]; intros name Hlen Hname.
  - destruct name; [| simpl in Hlen; lia]. reflexivity.
  - destruct name as [|c name]; simpl in *.
    + reflexivity.
    + destruct (bool_decide (c = rparen)); [discriminate |].
      destruct (bool_decide (c = backslash)).
      * destruct name as [|c' name]; [discriminate |]. simpl in *.
        rewrite IH by (lia || assumption). reflexivity.
      * rewrite IH by (lia || assumption). reflexivity.
Qed.

Lemma zero_name_escaped (name tail : list ascii) :
  escaped_name name = true ->
  zero_name (name ++ rparen :: tail) = (repeat zero (length name), rparen :: tail).
Proof. apply (zero_name_escaped_bounded (length name)). lia. Qed.

Lemma hide_filename_render (before name tail : list ascii) :
  Forall (fun c => c <> lparen) before -> escaped_name name = true ->
  hide_filename (before ++ lparen :: name ++ rparen :: tail)
  = before ++ repeat zero (S (S (length name))) ++ tail.
Proof.
  intros Hb Hn. unfold hide_filename. rewrite (find_lparen_app _ _ Hb).
  change (zero_name (lparen :: name ++ rparen :: tail))
    with (let '(zs, tl) := zero_name (name ++ rparen :: tail) in (zero :: zs, tl)).
  rewrite (zero_name_escaped _ _ Hn).
  change (zero_rparen (rparen :: tail)) with (zero :: tail).
  f_equal.
  change (zero :: repeat zero (length name)) with (repeat zero (S (length name))).
  rewrite cons_middle, app_assoc, <- repeat_cons. reflexivity.
Qed.

(** *** Tokens of blank-separated words *)

Section Split.

Variable delim : ascii -> bool.

Lemma split_tokens_word (w cur s : list ascii) :
  Forall (fun c => delim c = false) w ->
  Text.split_tokens delim cur (w ++ s) = Text.split_tokens delim (rev w ++ cur) s.
Proof.
  intros Hw. revert cur. induction Hw as [|c w Hc _ IH]; intros cur; simpl.
  - reflexivity.
  - rewrite Hc, IH, <- app_assoc. reflexivity.
Qed.

Lemma split_tokens_first (w s : list ascii) :
  w <> [] -> Forall (fun c => delim c = false) w -> boundary delim s ->
  Text.split_tokens delim [] (w ++ s) = w :: Text.split_tokens delim [] s.
Proof.
  intros Hne Hw Hs. rewrite (split_tokens_word _ _ _ Hw), app_nil_r.
  assert (Hrev : rev w <> []).
  { intros E. apply Hne. rewrite <- (rev_involutive w), E. reflexivity. }
  destruct s as [|c s]; simpl in *.
  - destruct (rev w) eqn:E; [contradiction |]. rewrite <- E, rev_involutive. reflexivity.
  - rewrite Hs. destruct (rev w) eqn:E; [contradiction |].
    rewrite <- E, rev_involutive. reflexivity.
Qed.

Lemma split_tokens_skip (c : ascii) (s : list ascii) :
  delim c = true -> Text.split_tokens delim [] (c :: s) = Text.split_tokens delim [] s.
Proof. intros Hc. simpl. rewrite Hc. reflexivity. Qed.

End Split.

Lemma isdigit_not_delim (c : ascii) :
  Text.isdigit c = true -> Text.default_delim c = false.
Proof.
  unfold Text.isdigit, Text.default_delim, Text.isspace, Text.ispunct.
  intros H. apply andb_true_iff in H as [H1 H2].
  apply Z.leb_le in H1, H2.
  repeat match goal with
         | |- context [?a <=? ?b] => destruct (Z.leb_spec a b); try lia
         | |- context [?a =? ?b] => destruct (Z.eqb_spec a b); try lia
         end; reflexivity.
Qed.

Lemma isdigit_not_lparen (c : ascii) : Text.isdigit c = true -> c <> lparen.
Proof. intros H ->. discriminate H. Qed.

Lemma number_digits (s : list ascii) :
  number s = true -> s <> [] /\ Forall (fun c => Text.isdigit c = true) s.
Proof.
  destruct s as [|c s]; [discriminate |]. unfold number. intros H.
  split; [discriminate |]. apply Forall_forall. intros x Hx.
  rewrite forallb_forall in H. apply H, list_elem_of_In, Hx.
Qed.

Lemma number_word (s : list ascii) :
  number s = true -> s <> [] /\ Forall (fun c => Text.default_delim c = false) s.
Proof.
  intros H. destruct (number_digits s H) as [Hne Hd]. split; [exact Hne |].
  eapply Forall_impl; [exact Hd | exact isdigit_not_delim].
Qed.

(** *** lexical_cast on a number *)

Lemma digits_value_fold (s : list ascii) (acc : Z) :
  Forall (fun c => Text.isdigit c = true) s ->
  Text.digits_value acc s = Some (fold_left (fun a c => 10 * a + (Text.code c - 48)) s acc).
Proof.
  intros H. revert acc. induction H as [|c s Hc _ IH]; intros acc; simpl.
  - reflexivity.
  - rewrite Hc. apply IH.
Qed.

Lemma lexical_cast_number (s : list ascii) :
  number s = true -> decimal s <= Int.INT_MAX ->
  Text.lexical_cast_int s = Some (decimal s).
Proof.
  intros Hn Hmax. destruct (number_digits s Hn) as [Hne Hd].
  destruct s as [|c s]; [contradiction |].
  unfold Text.lexical_cast_int.
  assert (Hc : Text.isdigit c = true) by (inversion Hd; assumption).
  assert (Hcode : 48 <= Text.code c <= 57).
  { unfold Text.isdigit in Hc. apply andb_true_iff in Hc as [H1 H2].
    apply Z.leb_le in H1, H2. lia. }
  destruct (Z.eqb_spec (Text.code c) 45); [lia |].
  destruct (Z.eqb_spec (Text.code c) 43); [lia |].
  rewrite (digits_value_fold _ _ Hd). fold (decimal (c :: s)). simpl.
  destruct (Z.leb_spec (decimal (c :: s)) Int.INT_MAX); [reflexivity | lia].
Qed.

(** *** The tokens of a valid line *)

Lemma boundary_rest (rest : list (list ascii)) :
  boundary Text.default_delim (concat (map (fun field => blank :: field) rest)).
Proof. destruct rest; simpl; [exact I | reflexivity]. Qed.

Lemma tokenizer_rest (rest : list (list ascii)) :
  forallb numeric_field rest = true ->
  Text.split_tokens Text.default_delim [] (concat (map (fun field => blank :: field) rest))
  = map unsigned rest.
Proof.
  induction rest as [|field rest IH]; intros H; simpl in *; [reflexivity |].
  apply andb_true_iff in H as [Hf Hrest].
  change (Text.default_delim blank) with true. cbn iota.
  unfold numeric_field in Hf. destruct (number_word _ Hf) as [Hne Hw].
  assert (Hsplit : Text.split_tokens Text.default_delim []
                     (field ++ concat (map (fun field => blank :: field) rest))
                   = unsigned field :: map unsigned rest).
  { rewrite <- (IH Hrest).
    destruct field as [|c ds]; [contradiction Hne; reflexivity |].
    unfold unsigned in *. destruct (bool_decide (c = minus)) eqn:E.
    - apply bool_decide_eq_true_1 in E as ->.
      rewrite <- app_comm_cons, split_tokens_skip by reflexivity.
      apply split_tokens_first; [assumption | assumption | apply boundary_rest].
    - apply split_tokens_first; [assumption | assumption | apply boundary_rest]. }
  exact Hsplit.
Qed.

Lemma tokenizer_render (f : stat_fields) :
  valid f = true ->
  Text.tokenizer (hide_filename (render f))
  = f_pid f :: repeat zero (S (S (length (f_comm f)))) :: [f_state f] :: f_ppid f
      :: map unsigned (f_rest f).
Proof.
  unfold valid. rewrite !andb_true_iff, negb_true_iff.
  intros ((((((((((Hpid & _) & Hname) & Hstate) & Hppid) & _) & Hrest) & _) & _) & _) & _).
  destruct (number_digits _ Hpid) as [_ Hpd].
  destruct (number_word _ Hpid) as [Hpne Hpw].
  destruct (number_word _ Hppid) as [Hqne Hqw].
  unfold render.
  replace (f_pid f ++ blank :: lparen :: f_comm f ++ rparen :: blank :: f_state f :: blank
             :: f_ppid f ++ concat (map (fun field => blank :: field) (f_rest f)))
    with ((f_pid f ++ [blank]) ++ lparen :: f_comm f ++ rparen
            :: (blank :: f_state f :: blank :: f_ppid f
                  ++ concat (map (fun field => blank :: field) (f_rest f))))
    by (rewrite <- app_assoc; reflexivity).
  rewrite hide_filename_render; [| | exact Hname].
  2:{ apply Forall_app. split; [| repeat constructor; discriminate].
      eapply Forall_impl; [exact Hpd | exact isdigit_not_lparen]. }
  unfold Text.tokenizer. rewrite <- app_assoc.
  rewrite split_tokens_first; [| exact Hpne | exact Hpw | reflexivity].
  f_equal. cbn [app]. rewrite split_tokens_skip by reflexivity.
  rewrite split_tokens_first; [| discriminate | | reflexivity].
  2:{ apply Forall_forall. intros c Hc. apply list_elem_of_In, repeat_spec in Hc as ->.
      reflexivity. }
  f_equal. rewrite split_tokens_skip by reflexivity.
  change (f_state f :: blank :: f_ppid f ++ concat (map (fun field => blank :: field) (f_rest f)))
    with ([f_state f] ++ blank :: f_ppid f
            ++ concat (map (fun field => blank :: field) (f_rest f))).
  rewrite split_tokens_first; [| discriminate | repeat constructor; exact Hstate | reflexivity].
  f_equal. rewrite split_tokens_skip by reflexivity.
  rewrite split_tokens_first; [| exact Hqne | exact Hqw | apply boundary_rest].
  f_equal. apply tokenizer_rest, Hrest.
Qed.

Lemma field_number (tokens : list (list ascii)) (n : nat) (tok : list ascii) :
  tokens !! n = Some tok -> number tok = true -> decimal tok <= Int.INT_MAX ->
  field tokens n = Parsed (decimal tok).
Proof.
  intros Hlook Hn Hmax. unfold field.
  rewrite Hlook, (lexical_cast_number _ Hn Hmax). reflexivity.
Qed.

Lemma field_counter (f : stat_fields) (t0 t1 t2 t3 : list ascii) (n : nat) :
  forallb numeric_field (f_rest f) = true -> fits_int f n = true -> (5 <= n)%nat ->
  exists fld,
    f_rest f !! (n - 5)%nat = Some fld
    /\ field (t0 :: t1 :: t2 :: t3 :: map unsigned (f_rest f)) (n - 1)
       = Parsed (decimal (unsigned fld)).
Proof.
  intros Hall Hfit Hn. unfold fits_int in Hfit.
  destruct (f_rest f !! (n - 5)%nat) as [fld|] eqn:E; [| discriminate].
  exists fld. split; [reflexivity |].
  apply field_number.
  - replace (n - 1)%nat with (S (S (S (S (n - 5)))))%nat by lia.
    change ((unsigned <$> f_rest f) !! (n - 5)%nat = Some (unsigned fld)).
    rewrite list_lookup_fmap, E. reflexivity.
  - rewrite forallb_forall in Hall. apply Hall, list_elem_of_In.
    eapply list_elem_of_lookup_2, E.
  - apply Z.leb_le, Hfit.
Qed.

(** C7: for every valid stat line, with blanks, parentheses and
    backslash escapes in the name, the parser returns a record whose
    pid is field 1 and whose ppid is field 4 of the line; its majflt is
    the sum of fields 12 and 13 and its rss is field 24. *)
Theorem parseProcStat_valid_line (f : stat_fields) :
  valid f = true ->
  exists r fld12 fld13 fld24,
    parseProcStat (render f) = Returned r
    /\ pid r = decimal (f_pid f)
    /\ ppid r = decimal (f_ppid f)
    /\ f_rest f !! 7%nat = Some fld12
    /\ f_rest f !! 8%nat = Some fld13
    /\ f_rest f !! 19%nat = Some fld24
    /\ majflt r = Int.add (decimal (unsigned fld12)) (decimal (unsigned fld13))
    /\ rss r = decimal (unsigned fld24).
Proof.
  intros Hvalid. pose proof (tokenizer_render f Hvalid) as Htok.
  unfold valid in Hvalid. rewrite !andb_true_iff in Hvalid.
  destruct Hvalid
    as ((((((((((Hpid & Hpmax) & _) & _) & Hppid) & Hqmax) & Hrest) & _) & H12) & H13) & H24).
  apply Z.leb_le in Hpmax, Hqmax.
  set (zs := repeat zero (S (S (length (f_comm f))))) in *.
  destruct (field_counter f (f_pid f) zs [f_state f] (f_ppid f) 12 Hrest H12 ltac:(lia))
    as (fld12 & E12 & F12).
  destruct (field_counter f (f_pid f) zs [f_state f] (f_ppid f) 13 Hrest H13 ltac:(lia))
    as (fld13 & E13 & F13).
  destruct (field_counter f (f_pid f) zs [f_state f] (f_ppid f) 24 Hrest H24 ltac:(lia))
    as (fld24 & E24 & F24).
  cbn [Nat.sub] in *.
  pose proof (field_number (f_pid f :: zs :: [f_state f] :: f_ppid f :: map unsigned (f_rest f))
                0 (f_pid f) eq_refl Hpid Hpmax) as F0.
  pose proof (field_number (f_pid f :: zs :: [f_state f] :: f_ppid f :: map unsigned (f_rest f))
                3 (f_ppid f) eq_refl Hppid Hqmax) as F3.
  rewrite parseProcStat_fields. unfold parse_failure, field_value, required, first_failure.
  rewrite Htok, F0, F3, F12, F13, F24.
  eexists _, fld12, fld13, fld24. repeat split; try reflexivity; assumption.
Qed.

Lemma parseProcStat_valid_line_witness :
  render escaped_line
  = Text.str "12 (foo \) bar) S 7 12 12 0 -1 4194304 100 0 8 9 1 1 0 0 20 -5 1 0 300 4096 25 18446744073709551615"
  /\ exists r fld12 fld13 fld24,
       parseProcStat (render escaped_line) = Returned r
       /\ pid r = 12
       /\ ppid r = 7
       /\ f_rest escaped_line !! 7%nat = Some fld12
       /\ f_rest escaped_line !! 8%nat = Some fld13
       /\ f_rest escaped_line !! 19%nat = Some fld24
       /\ majflt r = Int.add (decimal (unsigned fld12)) (decimal (unsigned fld13))
       /\ rss r = decimal (unsigned fld24).
Proof.
  split; [vm_compute; reflexivity |].
  apply (parseProcStat_valid_line escaped_line).
  vm_compute. reflexivity.
Defined.

(** A right parenthesis in the name that is not escaped ends the zeros
    early: the rest of the name becomes a token of its own and the
    state letter is read as the ppid. *)
Lemma unescaped_rparen_shifts_fields :
  Text.tokenizer (hide_filename (Text.str "12 (foo ) bar) S 7 12 12"))
  = map Text.str ["12"; "000000"; "bar"; "S"; "7"; "12"; "12"]%string
  /\ parseProcStat
       (Text.str "12 (foo ) bar) S 7 12 12 0 -1 4194304 100 0 8 9 1 1 0 0 20 0 1 0 300 4096 25")
     = bad_lexical_cast.
Proof. split; vm_compute; reflexivity. Qed.

(** ** Iterating a std::map *)

Lemma least_key_Some (p : Z -> bool) (observed : gmap Z RunningProcess) (k : Z) :
  least_key p observed = Some k ->
  is_Some (observed !! k) /\ p k = true
  /\ forall k', is_Some (observed !! k') -> p k' = true -> k <= k'.
Proof.
  unfold least_key.
  assert (Hkeys : forall x, x ∈ map fst (map_to_list observed) <-> is_Some (observed !! x)).
  { intros x. change (map fst (map_to_list observed)) with ((map_to_list observed).*1).
    rewrite list_elem_of_fmap. split.
    - intros [[x' r] [-> Hin]]. apply elem_of_map_to_list in Hin. exists r. exact Hin.
    - intros [r Hr]. exists (x, r). split; [reflexivity | apply elem_of_map_to_list, Hr]. }
  revert Hkeys. generalize (map fst (map_to_list observed)). intros l Hkeys.
  assert (H : forall res,
             foldr (fun k least =>
                      if p k then match least with
                                  | None => Some k
                                  | Some l => Some (Z.min k l)
                                  end
                      else least) None l = Some res ->
             res ∈ l /\ p res = true /\ forall k', k' ∈ l -> p k' = true -> res <= k').
  { clear Hkeys. induction l as [|x l IH]; simpl; [discriminate |].
    intros res. destruct (p x) eqn:Ex.
    - destruct (foldr _ None l) as [m|] eqn:Em.
      + destruct (IH m eq_refl) as (Hin & Hp & Hmin). intros [= <-].
        destruct (Z.min_spec x m) as [[Hlt ->]|[Hle ->]].
        * split; [left |]. split; [exact Ex |].
          intros k' Hk' Hpk'. apply elem_of_cons in Hk' as [->|Hk']; [lia |].
          specialize (Hmin k' Hk' Hpk'). lia.
        * split; [right; exact Hin |]. split; [exact Hp |].
          intros k' Hk' Hpk'. apply elem_of_cons in Hk' as [->|Hk']; [lia |].
          exact (Hmin k' Hk' Hpk').
      + intros [= <-]. split; [left |]. split; [exact Ex |].
        intros k' Hk' Hpk'. apply elem_of_cons in Hk' as [->|Hk']; [lia |].
        exfalso. clear IH. induction l as [|y l IHl]; [inversion Hk' |].
        simpl in Em. destruct (p y) eqn:Ey.
        * destruct (foldr _ None l); discriminate.
        * apply elem_of_cons in Hk' as [->|Hk']; [congruence | exact (IHl Em Hk')].
    - intros Hres. destruct (IH res Hres) as (Hin & Hp & Hmin).
      split; [right; exact Hin |]. split; [exact Hp |].
      intros k' Hk' Hpk'. apply elem_of_cons in Hk' as [->|Hk']; [congruence |].
      exact (Hmin k' Hk' Hpk'). }
  intros Hres. destruct (H k Hres) as (Hin & Hp & Hmin).
  split; [apply Hkeys, Hin |]. split; [exact Hp |].
  intros k' Hk'. apply Hmin, Hkeys, Hk'.
Qed.

Lemma least_key_None (p : Z -> bool) (observed : gmap Z RunningProcess) (k : Z) :
  least_key p observed = None -> is_Some (observed !! k) -> p k = false.
Proof.
  unfold least_key. intros Hnone [r Hr].
  assert (Hin : k ∈ map fst (map_to_list observed)).
  { change (map fst (map_to_list observed)) with ((map_to_list observed).*1).
    apply list_elem_of_fmap. exists (k, r). split; [reflexivity | apply elem_of_map_to_list, Hr]. }
  revert Hnone Hin. generalize (map fst (map_to_list observed)). intros l.
  induction l as [|y l IH]; simpl; intros Hnone Hin; [inversion Hin |].
  destruct (p y) eqn:Ey.
  - destruct (foldr _ None l); discriminate.
  - apply elem_of_cons in Hin as [->|Hin]; [exact Ey | exact (IH Hnone Hin)].
Qed.

(** ** The rollup *)

Lemma subscript_touch (observed : gmap Z RunningProcess) (k : Z) :
  subscript observed k = (touch observed k, observed !!! k).
Proof.
  unfold touch. rewrite <- (subscript_total observed k).
  destruct (subscript observed k); reflexivity.
Qed.

Lemma touch_lookup (observed : gmap Z RunningProcess) (k : Z) :
  touch observed k !! k = Some (observed !!! k).
Proof.
  unfold touch, subscript. destruct (observed !! k) as [r|] eqn:E; simpl.
  - rewrite E, (lookup_total_Some _ _ _ E). reflexivity.
  - rewrite lookup_insert_eq, (lookup_total_None _ _ E). reflexivity.
Qed.

Lemma touch_reads (observed : gmap Z RunningProcess) (k x : Z) :
  touch observed k !!! x = observed !!! x.
Proof. apply subscript_same_reads. Qed.

Lemma touch_keys (observed : gmap Z RunningProcess) (k x : Z) :
  is_Some (touch observed k !! x) <-> is_Some (observed !! x) \/ x = k.
Proof.
  unfold touch, subscript. destruct (observed !! k) as [r|] eqn:E; simpl.
  - split; [left; assumption | intros [H| ->]; [assumption | exists r; exact E]].
  - rewrite lookup_insert_is_Some. split.
    + intros [->|[_ H]]; [right; reflexivity | left; exact H].
    + intros [H| ->]; [| left; reflexivity].
      destruct (decide (k = x)) as [->|Hne]; [left; reflexivity | right; split; assumption].
Qed.

Lemma subscript_present (observed : gmap Z RunningProcess) (k : Z) (r : RunningProcess) :
  observed !! k = Some r -> subscript observed k = (observed, r).
Proof. intros H. unfold subscript. rewrite H. reflexivity. Qed.

Section Rollup.

Variable me : Z.
Variable V : gmap Z RunningProcess.

Lemma halting_same_links (observed : gmap Z RunningProcess) (k : Z) :
  same_links V observed -> halting me observed k = halting me V k.
Proof. intros H. unfold halting. rewrite (proj2 (H k)). reflexivity. Qed.

Lemma walk_climb (fuel : nat) (observed : gmap Z RunningProcess) (k : Z) :
  same_links V observed ->
  match climb fuel me V k with
  | Some m =>
      exists observed',
        walk fuel me observed k = Some (observed', m)
        /\ (forall x, observed' !!! x = observed !!! x)
        /\ (forall x, is_Some (observed' !! x) <-> is_Some (observed !! x) \/ (x = m /\ m <> 0))
  | None => walk fuel me observed k = None
  end.
Proof.
  intros Hlinks. revert k. induction fuel as [|fuel IH]; intros k; [reflexivity |].
  rewrite walk_unfold. cbn [climb]. rewrite (halting_same_links _ _ Hlinks).
  destruct (halting me V k) eqn:Eh.
  - destruct (Z.eqb_spec k 0) as [->|Hk0].
    + exists observed. split; [reflexivity |]. split; [reflexivity |].
      intros x. split; [left; assumption | intros [H|[_ H]]; [assumption | contradiction]].
    + exists (touch observed k). split; [reflexivity |]. split; [apply touch_reads |].
      intros x. rewrite touch_keys. split; (intros [H|H]; [left; exact H | right]).
      * split; assumption.
      * apply H.
  - rewrite (proj2 (Hlinks k)). apply IH.
Qed.

Lemma climb_mono (n n' : nat) (k m : Z) :
  climb n me V k = Some m -> (n <= n')%nat -> climb n' me V k = Some m.
Proof.
  revert n' k. induction n as [|n IH]; intros n' k; [discriminate |].
  intros H Hle. destruct n' as [|n']; [lia |]. simpl in *.
  destruct (halting me V k); [exact H | apply IH; [exact H | lia]].
Qed.

Lemma climb_halting (n : nat) (k m : Z) :
  climb n me V k = Some m -> halting me V m = true.
Proof.
  revert k. induction n as [|n IH]; intros k; [discriminate |]. simpl.
  destruct (halting me V k) eqn:E; [intros [= <-]; exact E | apply IH].
Qed.

Lemma climb_self (n : nat) (k m : Z) :
  climb n me V k = Some m -> halting me V k = true -> m = k.
Proof. destruct n; [discriminate |]. simpl. intros H E. rewrite E in H. congruence. Qed.

(** The root is the pid itself or the ppid of a sampled record. *)
Lemma climb_linked (n : nat) (k m : Z) :
  climb n me V k = Some m ->
  m = k \/ exists k' r, V !! k' = Some r /\ ppid r = m.
Proof.
  revert k. induction n as [|n IH]; intros k; [discriminate |]. simpl.
  destruct (halting me V k) eqn:E; [intros [= <-]; left; reflexivity |].
  intros H. right. destruct (IH _ H) as [->|Hex]; [| exact Hex].
  destruct (halting_false_present _ _ _ E) as (r & Hr & _).
  exists k, r. split; [exact Hr |]. rewrite (lookup_total_Some _ _ _ Hr). reflexivity.
Qed.

Hypothesis V_acyclic : acyclic me V.

Lemma same_links_refl : same_links V V.
Proof. intros k. split; reflexivity. Qed.

Lemma climb_acyclic (fuel : nat) (k : Z) :
  (size V < fuel)%nat -> is_Some (climb fuel me V k).
Proof.
  intros Hfuel. pose proof (walk_climb fuel V k same_links_refl) as H.
  destruct (climb fuel me V k) as [m|]; [exists m; reflexivity |].
  apply (walk_None_bound _ _ _ _ V_acyclic) in H. lia.
Qed.

Lemma climb_root (fuel : nat) (k : Z) :
  (size V < fuel)%nat -> climb fuel me V k = attribution_root me V k.
Proof.
  intros Hfuel. unfold attribution_root.
  destruct (climb_acyclic (S (size V)) k ltac:(lia)) as [m Hm].
  rewrite Hm. apply (climb_mono _ _ _ _ Hm). lia.
Qed.

(** What one turn of the rollup loop does to the entries as they read. *)
Lemma rollup_entry_reads (fuel : nat) (observed : gmap Z RunningProcess) (i : Z) :
  same_links V observed -> (size V < fuel)%nat ->
  exists m observed',
    attribution_root me V (pid (observed !!! i)) = Some m
    /\ rollup_entry fuel me observed i = Some observed'
    /\ (forall x, is_Some (observed' !! x) <-> is_Some (observed !! x) \/ x = m)
    /\ if bool_decide (pid (observed !!! m) ≠ pid (observed !!! i))
       then observed' !!! m
            = {| pid := pid (observed !!! m); ppid := ppid (observed !!! m);
                 majflt := Int.add (majflt (observed !!! m)) (majflt (observed !!! i));
                 rss := Int.add (rss (observed !!! m)) (rss (observed !!! i)) |}
            /\ forall x, x <> m -> observed' !!! x = observed !!! x
       else forall x, observed' !!! x = observed !!! x.
Proof.
  intros Hlinks Hfuel.
  pose proof (walk_climb fuel observed (pid (observed !!! i)) Hlinks) as Hw.
  rewrite (climb_root _ _ Hfuel) in Hw.
  destruct (climb_acyclic (S (size V)) (pid (observed !!! i)) ltac:(lia)) as [m Hm].
  fold (attribution_root me V (pid (observed !!! i))) in Hm. rewrite Hm in Hw.
  destruct Hw as (obs1 & Hwalk & Hreads & Hkeys).
  exists m. unfold rollup_entry, second. rewrite Hwalk. cbn [mbind option_bind].
  rewrite subscript_touch, touch_reads, !Hreads.
  destruct (bool_decide (pid (observed !!! m) ≠ pid (observed !!! i))) eqn:Ec.
  - apply bool_decide_eq_true_1 in Ec.
    assert (Him : i <> m) by (intros ->; apply Ec; reflexivity).
    rewrite (subscript_present _ _ _ (touch_lookup obs1 m)), Hreads.
    rewrite (subscript_present _ m _ (lookup_insert_eq _ _ _)).
    assert (Hi : forall r, <[m := r]> (touch obs1 m) !!! i = observed !!! i).
    { intros r. rewrite lookup_total_insert_ne by (intros E; apply Him; symmetry; exact E).
      rewrite touch_reads. apply Hreads. }
    rewrite Hi, touch_reads, Hreads, insert_insert_eq.
    eexists. split; [exact Hm |]. split; [reflexivity |]. split; [| split].
    + intros x. rewrite lookup_insert_is_Some, touch_keys, Hkeys.
      destruct (decide (m = x)) as [->|Hne]; [tauto |].
      split; [intros [->|[_ [[H|[-> _]]| ->]]]; tauto | intros [H| ->]; [| tauto]].
      right. split; [exact Hne | left; left; exact H].
    + rewrite lookup_total_insert_eq. reflexivity.
    + intros x Hx. rewrite lookup_total_insert_ne by (intros E; apply Hx; symmetry; exact E).
      rewrite touch_reads. apply Hreads.
  - eexists. split; [exact Hm |]. split; [reflexivity |]. split.
    + intros x. rewrite touch_keys, Hkeys. tauto.
    + intros x. rewrite touch_reads. apply Hreads.
Qed.

(** *** What the loop has added so far *)

Lemma keys_NoDup : NoDup (keys V).
Proof. apply NoDup_fst_map_to_list. Qed.

Lemma elem_of_keys (k : Z) : k ∈ keys V <-> is_Some (V !! k).
Proof.
  unfold keys. change (map fst (map_to_list V)) with ((map_to_list V).*1).
  rewrite list_elem_of_fmap. split.
  - intros [[x r] [-> Hin]]. apply elem_of_map_to_list in Hin. exists r. exact Hin.
  - intros [r Hr]. exists (k, r). split; [reflexivity | apply elem_of_map_to_list, Hr].
Qed.

Lemma attributed_filter_step (field : RunningProcess -> Z) (m i : Z) (p p' : Z -> bool)
  (l : list Z) :
  NoDup l -> p i = false ->
  (forall k, k ∈ l -> p' k = p k || (k =? i)) ->
  attributed me V field (List.filter p' l) m
  = attributed me V field (List.filter p l) m
    + (if bool_decide (i ∈ l) then contribution me V field m i else 0).
Proof.
  intros Hnd Hpi. induction Hnd as [|x l Hx Hnd IH]; intros Hp'; simpl.
  - reflexivity.
  - assert (IH' := IH (fun k Hk => Hp' k (list_elem_of_further _ _ _ Hk))).
    rewrite (Hp' x (list_elem_of_here _ _)).
    destruct (Z.eqb_spec x i) as [->|Hne].
    + rewrite Hpi. simpl. rewrite IH'.
      rewrite (bool_decide_eq_false_2 (i ∈ l)) by exact Hx.
      rewrite bool_decide_eq_true_2 by left. lia.
    + rewrite orb_false_r.
      rewrite (bool_decide_ext (i ∈ x :: l) (i ∈ l)).
      2:{ rewrite elem_of_cons. split; [intros [E|H]; [congruence | exact H] | tauto]. }
      destruct (p x); simpl; rewrite IH'; lia.
Qed.

Lemma attributed_not_root (field : RunningProcess -> Z) (js : list Z) (m : Z) :
  halting me V m = false -> attributed me V field js m = 0.
Proof.
  intros Hm. induction js as [|j js IH]; simpl; [reflexivity |].
  rewrite IH. unfold contribution.
  rewrite bool_decide_eq_false_2; [reflexivity |].
  intros [_ Hroot]. apply climb_halting in Hroot. congruence.
Qed.

(** *** The loop invariant *)

Hypothesis V_keyed : forall k r, V !! k = Some r -> pid r = k.
Hypothesis V_fits : forall k r, V !! k = Some r -> Int.fits (rss r) /\ Int.fits (majflt r).

Lemma pid_sampled (k : Z) :
  (is_Some (V !! k) /\ pid (V !!! k) = k) \/ (V !! k = None /\ pid (V !!! k) = 0).
Proof.
  destruct (V !! k) as [r|] eqn:E.
  - left. split; [exists r; reflexivity |].
    rewrite (lookup_total_Some _ _ _ E). apply (V_keyed _ _ E).
  - right. split; [reflexivity |]. rewrite (lookup_total_None _ _ E). reflexivity.
Qed.

Lemma root_zero : attribution_root me V 0 = Some 0.
Proof. reflexivity. Qed.

Lemma before_next (observed : gmap Z RunningProcess) (i k : Z) :
  is_Some (observed !! k) ->
  before (next_key observed i) k = before (Some i) k || (k =? i).
Proof.
  intros Hk. unfold next_key. simpl.
  destruct (least_key (fun k' => i <? k') observed) as [n|] eqn:E; simpl.
  - apply least_key_Some in E as (_ & Hn & Hmin). apply Z.ltb_lt in Hn.
    destruct (Z.ltb_spec k n) as [Hlt|Hge].
    + destruct (Z.ltb_spec k i); [reflexivity |].
      destruct (Z.eqb_spec k i); [reflexivity |].
      assert (i < k) by lia. specialize (Hmin k Hk). rewrite (proj2 (Z.ltb_lt i k)) in Hmin by lia.
      specialize (Hmin eq_refl). lia.
    + destruct (Z.ltb_spec k i); [lia |]. destruct (Z.eqb_spec k i); [lia | reflexivity].
  - pose proof (least_key_None _ _ k E Hk) as Hp. simpl in Hp. apply Z.ltb_ge in Hp.
    destruct (Z.ltb_spec k i); [reflexivity |]. destruct (Z.eqb_spec k i); [reflexivity | lia].
Qed.

Lemma universe_key (k : Z) : is_Some (V !! k) -> k ∈ universe V.
Proof. intros H. unfold universe. apply elem_of_app. left. apply elem_of_keys, H. Qed.

Lemma universe_ppid (k : Z) (r : RunningProcess) : V !! k = Some r -> ppid r ∈ universe V.
Proof.
  intros H. unfold universe. apply elem_of_app. right. apply elem_of_app. left.
  change (map (fun kr => ppid kr.2) (map_to_list V))
    with ((fun kr : Z * RunningProcess => ppid kr.2) <$> map_to_list V).
  apply list_elem_of_fmap. exists (k, r). split; [reflexivity |].
  apply elem_of_map_to_list, H.
Qed.

Lemma universe_zero : 0 ∈ universe V.
Proof. unfold universe. rewrite !elem_of_app. right. right. left. Qed.

Lemma rollup_entry_rolled (fuel : nat) (observed : gmap Z RunningProcess) (i : Z) :
  rolled me V observed (Some i) -> (size V < fuel)%nat ->
  exists observed',
    rollup_entry fuel me observed i = Some observed'
    /\ rolled me V observed' (next_key observed' i).
Proof.
  intros [Hlinks Hrss Hmaj Hkeeps Huni] Hfuel.
  destruct (rollup_entry_reads fuel observed i Hlinks Hfuel)
    as (m & observed' & Hroot & Hentry & Hkeys & Hcase).
  exists observed'. split; [exact Hentry |].
  rewrite (proj1 (Hlinks m)), (proj1 (Hlinks i)) in Hcase.
  rewrite (proj1 (Hlinks i)) in Hroot.
  (* the keys passed once the iterator has moved on *)
  assert (Hsum : forall field k,
             attributed me V field (processed V (next_key observed' i)) k
             = attributed me V field (processed V (Some i)) k
               + (if bool_decide (i ∈ keys V) then contribution me V field k i else 0)).
  { intros field k. apply attributed_filter_step.
    - apply keys_NoDup.
    - simpl. apply Z.ltb_irrefl.
    - intros x Hx. apply before_next, Hkeys. left. apply Hkeeps, elem_of_keys, Hx. }
  (* what the turn adds, field by field *)
  assert (Hfield : forall field : RunningProcess -> Z,
             (forall k, field (observed !!! k)
                        = Int.wrap (field (V !!! k)
                                    + attributed me V field (processed V (Some i)) k)) ->
             (if bool_decide (pid (V !!! m) ≠ pid (V !!! i))
              then field (observed' !!! m)
                   = Int.add (field (observed !!! m)) (field (observed !!! i))
                   /\ forall x, x <> m -> field (observed' !!! x) = field (observed !!! x)
              else forall x, field (observed' !!! x) = field (observed !!! x)) ->
             forall k, field (observed' !!! k)
                       = Int.wrap (field (V !!! k)
                                   + attributed me V field (processed V (next_key observed' i)) k)).
  { intros field Hobs Hstep k. rewrite Hsum.
    destruct (pid_sampled i) as [[Hsome Hpi]|[Hnone Hpi]]; rewrite Hpi in Hroot, Hstep.
    - assert (Hin : i ∈ keys V) by (apply elem_of_keys, Hsome).
      rewrite (bool_decide_eq_true_2 _ Hin).
      destruct (decide (m = i)) as [->|Hmi].
      + rewrite Hpi in Hstep.
        rewrite bool_decide_eq_false_2 in Hstep by (intros H; apply H; reflexivity).
        rewrite Hstep, Hobs. unfold contribution.
        rewrite bool_decide_eq_false_2; [f_equal; lia |].
        intros [Hne Hr]. rewrite Hroot in Hr. congruence.
      + assert (Hhalt : halting me V i = false).
        { destruct (halting me V i) eqn:E; [| reflexivity].
          exfalso. apply Hmi. exact (climb_self _ _ _ Hroot E). }
        assert (Hi0 : i <> 0).
        { destruct (halting_false_present _ _ _ Hhalt) as (_ & _ & H & _). exact H. }
        rewrite bool_decide_eq_true_2 in Hstep
          by (destruct (pid_sampled m) as [[_ ->]|[_ ->]];
              [exact Hmi | intros E; apply Hi0; symmetry; exact E]).
        destruct Hstep as [Hm Hother].
        destruct (decide (k = m)) as [->|Hkm].
        * rewrite Hm. unfold Int.add. rewrite !Hobs.
          rewrite (attributed_not_root field _ i Hhalt), Z.add_0_r.
          rewrite wrap_add_l, wrap_add_r. unfold contribution.
          rewrite bool_decide_eq_true_2
            by (split; [intros E; apply Hmi; symmetry; exact E | exact Hroot]).
          f_equal. lia.
        * rewrite (Hother k Hkm), Hobs. unfold contribution.
          rewrite bool_decide_eq_false_2; [f_equal; lia |].
          intros [_ Hr]. rewrite Hroot in Hr. congruence.
    - rewrite bool_decide_eq_false_2
        by (rewrite elem_of_keys, Hnone; intros [x Hx]; discriminate Hx).
      assert (m = 0) as -> by (rewrite root_zero in Hroot; congruence).
      rewrite bool_decide_eq_false_2 in Hstep.
      2:{ intros H. apply H. destruct (pid_sampled 0) as [[_ ->]|[_ ->]]; reflexivity. }
      rewrite Hstep, Hobs. f_equal. lia. }
  split.
  - (* links *)
    intros k. destruct (bool_decide (pid (V !!! m) ≠ pid (V !!! i))).
    + destruct Hcase as [Hm Hother]. destruct (decide (k = m)) as [->|Hkm].
      * rewrite Hm. simpl. split; [reflexivity | apply Hlinks].
      * rewrite (Hother k Hkm). apply Hlinks.
    + rewrite Hcase. apply Hlinks.
  - apply Hfield; [exact Hrss |].
    destruct (bool_decide (pid (V !!! m) ≠ pid (V !!! i))).
    + destruct Hcase as [Hm Hother]. split; [rewrite Hm; reflexivity |].
      intros x Hx. rewrite (Hother x Hx). reflexivity.
    + intros x. rewrite Hcase. reflexivity.
  - apply Hfield; [exact Hmaj |].
    destruct (bool_decide (pid (V !!! m) ≠ pid (V !!! i))).
    + destruct Hcase as [Hm Hother]. split; [rewrite Hm; reflexivity |].
      intros x Hx. rewrite (Hother x Hx). reflexivity.
    + intros x. rewrite Hcase. reflexivity.
  - intros k Hk. apply Hkeys. left. apply Hkeeps, Hk.
  - intros k Hk. apply Hkeys in Hk as [Hk| ->]; [apply Huni, Hk |].
    destruct (climb_linked _ _ _ Hroot) as [->|(k' & r & Hr & <-)].
    + destruct (pid_sampled i) as [[Hsome ->]|[_ ->]];
        [apply universe_key, Hsome | apply universe_zero].
    + apply (universe_ppid _ _ Hr).
Qed.

(** *** Termination of the loop *)

Lemma filter_above_le (c n : Z) (l : list Z) :
  c < n ->
  (length (List.filter (fun k => (n <? k)%Z) l)
   <= length (List.filter (fun k => (c <? k)%Z) l))%nat.
Proof.
  intros Hcn. induction l as [|x l IH]; simpl; [lia |].
  destruct (Z.ltb_spec n x); destruct (Z.ltb_spec c x); simpl; lia.
Qed.

Lemma filter_above_lt (c n : Z) (l : list Z) :
  c < n -> n ∈ l ->
  (length (List.filter (fun k => (n <? k)%Z) l)
   < length (List.filter (fun k => (c <? k)%Z) l))%nat.
Proof.
  intros Hcn Hin. induction l as [|x l IH]; [inversion Hin |]. simpl.
  apply elem_of_cons in Hin as [<-|Hin].
  - rewrite Z.ltb_irrefl, (proj2 (Z.ltb_lt c n) Hcn). simpl.
    pose proof (filter_above_le c n l Hcn). lia.
  - specialize (IH Hin).
    destruct (Z.ltb_spec n x); destruct (Z.ltb_spec c x); simpl; lia.
Qed.

Lemma rollup_from_rolled (rounds fuel : nat) (observed : gmap Z RunningProcess)
  (pos : option Z) :
  rolled me V observed pos -> (size V < fuel)%nat -> (turns_left V pos <= rounds)%nat ->
  exists observed', rollup_from rounds fuel me observed pos = Some observed'
                    /\ rolled me V observed' None.
Proof.
  intros Hrolled Hfuel. revert observed pos Hrolled.
  induction rounds as [|rounds IH]; intros observed pos Hrolled Hturns.
  - destruct pos as [c|]; [simpl in Hturns; lia |].
    exists observed. split; [reflexivity | exact Hrolled].
  - destruct pos as [c|]; [| exists observed; split; [reflexivity | exact Hrolled]].
    destruct (rollup_entry_rolled fuel observed c Hrolled Hfuel) as (obs' & Hentry & Hrolled').
    cbn [rollup_from]. rewrite Hentry. cbn [mbind option_bind].
    apply IH; [exact Hrolled' |].
    destruct (next_key obs' c) as [n|] eqn:En; [| simpl; lia].
    unfold next_key in En. apply least_key_Some in En as (Hn & Hcn & _).
    apply Z.ltb_lt in Hcn. simpl in *.
    pose proof (filter_above_lt c n (universe V) Hcn (rolled_universe _ _ _ _ Hrolled' n Hn)). lia.
Qed.

Lemma turns_left_bound (pos : option Z) : (turns_left V pos <= 2 * size V + 2)%nat.
Proof.
  destruct pos as [c|]; simpl; [| lia].
  pose proof (filter_length (fun k => c <? k) (universe V)) as H.
  unfold universe, keys in H. rewrite !length_app, !length_map, length_map_to_list in H.
  simpl in H. unfold universe, keys. lia.
Qed.

Lemma filter_none {A : Type} (p : A -> bool) (l : list A) :
  (forall x, x ∈ l -> p x = false) -> List.filter p l = [].
Proof.
  induction l as [|x l IH]; intros H; simpl; [reflexivity |].
  rewrite (H x (list_elem_of_here _ _)). apply IH.
  intros y Hy. apply H. right. exact Hy.
Qed.

Lemma fits_sampled (k : Z) : Int.fits (rss (V !!! k)) /\ Int.fits (majflt (V !!! k)).
Proof.
  destruct (V !! k) as [r|] eqn:E.
  - rewrite (lookup_total_Some _ _ _ E). apply (V_fits _ _ E).
  - rewrite (lookup_total_None _ _ E). simpl.
    unfold Int.fits, Int.INT_MIN, Int.INT_MAX. lia.
Qed.

Lemma rolled_begin : rolled me V V (begin_key V).
Proof.
  assert (Hnone : processed V (begin_key V) = []).
  { unfold processed. apply filter_none. intros k Hk. apply elem_of_keys in Hk.
    unfold begin_key. destruct (least_key (fun _ => true) V) as [c|] eqn:E; simpl.
    - apply least_key_Some in E as (_ & _ & Hmin). apply Z.ltb_ge, Hmin; [exact Hk | reflexivity].
    - exact (least_key_None _ _ k E Hk). }
  split.
  - apply same_links_refl.
  - intros k. rewrite Hnone. simpl. rewrite Z.add_0_r.
    symmetry. apply wrap_fits, fits_sampled.
  - intros k. rewrite Hnone. simpl. rewrite Z.add_0_r.
    symmetry. apply wrap_fits, fits_sampled.
  - intros k Hk. exact Hk.
  - intros k Hk. apply universe_key, Hk.
Qed.

Lemma processed_end : processed V None = keys V.
Proof.
  unfold processed. simpl. induction (keys V) as [|x l IH]; simpl; [reflexivity |].
  rewrite IH. reflexivity.
Qed.

(** The rollup ends, and every entry then reads as its sampled value
    plus what the records rooted at it add. *)
Lemma rollup_totals (rounds fuel : nat) :
  (2 * size V + 2 <= rounds)%nat -> (size V < fuel)%nat ->
  exists observed',
    rollup rounds fuel me V = Some observed'
    /\ forall k,
         rss (observed' !!! k) = Int.wrap (rss (V !!! k) + attributed me V rss (keys V) k)
         /\ majflt (observed' !!! k)
            = Int.wrap (majflt (V !!! k) + attributed me V majflt (keys V) k).
Proof.
  intros Hrounds Hfuel. unfold rollup.
  destruct (rollup_from_rolled rounds fuel V (begin_key V) rolled_begin Hfuel)
    as (obs' & Hroll & Hrolled).
  - pose proof (turns_left_bound (begin_key V)). lia.
  - exists obs'. split; [exact Hroll |].
    intros k. rewrite <- processed_end.
    split; [apply (rolled_rss _ _ _ _ Hrolled) | apply (rolled_majflt _ _ _ _ Hrolled)].
Qed.

End Rollup.

(** *** Writeback *)

Lemma writeback_reads (pl : list Process) (observed observed0 : gmap Z RunningProcess) :
  (forall x, observed !!! x = observed0 !!! x) ->
  writeback observed pl
  = map (fun m => setPageFaults (setCurrentRss m (rss (observed0 !!! process_pid m)))
                    (majflt (observed0 !!! process_pid m))) pl.
Proof.
  revert observed. induction pl as [|m pl IH]; intros observed Hreads; simpl; [reflexivity |].
  rewrite subscript_touch, subscript_touch, touch_reads, !Hreads.
  f_equal. apply IH. intros x. rewrite !touch_reads. apply Hreads.
Qed.

(** *** The view a scan yields *)

Lemma wrap_range (z : Z) : Int.fits (Int.wrap z).
Proof.
  unfold Int.fits, Int.wrap, Int.INT_MIN, Int.INT_MAX.
  pose proof (Z.mod_pos_bound (z + 2 ^ 31) (2 ^ 32) ltac:(lia)). lia.
Qed.

Lemma digits_value_nonneg (s : list ascii) (acc v : Z) :
  Text.digits_value acc s = Some v -> 0 <= acc -> 0 <= v.
Proof.
  revert acc. induction s as [|c s IH]; intros acc; simpl.
  - intros [= <-] H. exact H.
  - destruct (Text.isdigit c) eqn:E; [| discriminate].
    intros H Hacc. apply (IH _ H).
    unfold Text.isdigit in E. apply andb_true_iff in E as [E _]. apply Z.leb_le in E. lia.
Qed.

Lemma lexical_cast_fits (s : list ascii) (v : Z) :
  Text.lexical_cast_int s = Some v -> Int.fits v.
Proof.
  unfold Text.lexical_cast_int, Int.fits, Int.INT_MIN, Int.INT_MAX.
  destruct s as [|c ds]; [discriminate |].
  destruct (Text.code c =? 45).
  - destruct ds as [|d ds]; [discriminate |].
    destruct (Text.digits_value 0 (d :: ds)) as [w|] eqn:E; simpl; [| discriminate].
    destruct (Z.leb_spec w (2 ^ 31)); [| discriminate].
    intros [= <-]. pose proof (digits_value_nonneg _ _ _ E ltac:(lia)). lia.
  - destruct (Text.code c =? 43).
    + destruct ds as [|d ds]; [discriminate |].
      destruct (Text.digits_value 0 (d :: ds)) as [w|] eqn:E; simpl; [| discriminate].
      destruct (Z.leb_spec w (2 ^ 31 - 1)); [| discriminate].
      intros [= <-]. pose proof (digits_value_nonneg _ _ _ E ltac:(lia)). lia.
    + destruct (Text.digits_value 0 (c :: ds)) as [w|] eqn:E; simpl; [| discriminate].
      destruct (Z.leb_spec w (2 ^ 31 - 1)); [| discriminate].
      intros [= <-]. pose proof (digits_value_nonneg _ _ _ E ltac:(lia)). lia.
Qed.

Lemma field_value_fits (tokens : list (list ascii)) (n : nat) :
  Int.fits (field_value tokens n).
Proof.
  unfold field_value, field.
  destruct (tokens !! n) as [tok|]; [| unfold Int.fits, Int.INT_MIN, Int.INT_MAX; lia].
  destruct (Text.lexical_cast_int tok) as [v|] eqn:E;
    [exact (lexical_cast_fits _ _ E) | unfold Int.fits, Int.INT_MIN, Int.INT_MAX; lia].
Qed.

Lemma parseProcStat_fits (line : list ascii) (r : RunningProcess) :
  parseProcStat line = Returned r -> Int.fits (rss r) /\ Int.fits (majflt r).
Proof.
  rewrite parseProcStat_fields.
  destruct (parse_failure line) as [[| |v]|]; try discriminate;
    intros [= <-]; simpl;
    try (split; unfold Int.fits, Int.INT_MIN, Int.INT_MAX; lia).
  split; [apply field_value_fits | apply wrap_range].
Qed.

Lemma observe_sound (observed : gmap Z RunningProcess) (line : list ascii) :
  sound_view observed -> sound_view (observe observed line).
Proof.
  intros Hs. unfold observe.
  destruct (parseProcStat line) as [r|] eqn:E; [| exact Hs].
  intros k r'. rewrite lookup_insert. case_decide as Hk.
  - intros [= <-]. split; [exact Hk | exact (parseProcStat_fits _ _ E)].
  - apply Hs.
Qed.

Lemma sample_sound (stat_lines : list (list ascii)) : sound_view (sample stat_lines).
Proof.
  unfold sample.
  assert (H : forall observed, sound_view observed ->
                               sound_view (fold_left observe stat_lines observed)).
  { induction stat_lines as [|line lines IH]; intros observed Hs; simpl; [exact Hs |].
    apply IH, observe_sound, Hs. }
  apply H. intros k r Hk. rewrite lookup_empty in Hk. discriminate Hk.
Qed.

(** *** The totals written back *)

(** The chain of [j] ends at [m], said with the links themselves. *)
Lemma attribution_root_chain (me : Z) (V : gmap Z RunningProcess) (j m : Z) :
  acyclic me V ->
  attribution_root me V j = Some m
  <-> rtc (parent me V) j m /\ halting me V m = true.
Proof.
  intros Hacyc. split.
  - unfold attribution_root. generalize (S (size V)). intros n. revert j.
    induction n as [|n IH]; intros j; [discriminate |]. simpl.
    destruct (halting me V j) eqn:E.
    + intros [= <-]. split; [apply rtc_refl | exact E].
    + intros H. destruct (IH _ H) as [Hrtc Hm]. split; [| exact Hm].
      eapply rtc_l; [split; [exact E | reflexivity] | exact Hrtc].
  - intros [Hrtc Hm]. induction Hrtc as [j|j j' m [Hj ->] _ IH].
    + unfold attribution_root. simpl. rewrite Hm. reflexivity.
    + specialize (IH Hm).
      rewrite <- (climb_root me V Hacyc (S (S (size V))) j ltac:(lia)).
      cbn [climb]. rewrite Hj. exact IH.
Qed.

(** C5: on a view without a cycle the rollup ends (given rounds for
    every key and fuel for the longest chain) and each managed process
    is written the sum of its own sampled RSS and the sampled RSS of
    every pid whose ancestry chain ends at it, and likewise for major
    faults, as long as the sum is an [int]. *)
Theorem scanProcesses_totals (stat_lines : list (list ascii)) (me : Z) (pl : list Process)
  (rounds fuel : nat) :
  acyclic me (sample stat_lines) ->
  (2 * size (sample stat_lines) + 2 <= rounds)%nat ->
  (size (sample stat_lines) < fuel)%nat ->
  exists pl',
    scanProcesses rounds fuel stat_lines me pl = Some pl'
    /\ Forall2 (totals_written me (sample stat_lines)) pl pl'.
Proof.
  intros Hacyc Hrounds Hfuel.
  pose proof (sample_sound stat_lines) as Hsound.
  destruct (rollup_totals me (sample stat_lines) Hacyc
              (fun k r H => proj1 (Hsound k r H)) (fun k r H => proj2 (Hsound k r H))
              rounds fuel Hrounds Hfuel) as (obs' & Hroll & Htotals).
  unfold scanProcesses. rewrite Hroll. cbn [mbind option_bind].
  eexists. split; [reflexivity |].
  rewrite (writeback_reads pl obs' obs' (fun x => eq_refl)).
  induction pl as [|p pl IH]; simpl; constructor; [| exact IH].
  destruct (Htotals (process_pid p)) as [Hrss Hmaj]. unfold totals_written. simpl.
  split; [reflexivity |]. unfold own_and_descendants.
  split; intros Hfit; [rewrite Hrss | rewrite Hmaj]; apply wrap_fits, Hfit.
Qed.

Lemma scanProcesses_totals_witness :
  exists pl',
    scanProcesses 12 6 family_lines 20 [service] = Some pl'
    /\ Forall2 (totals_written 20 (sample family_lines)) [service] pl'.
Proof.
  apply (scanProcesses_totals family_lines 20 [service] 12 6).
  - apply (ranked_acyclic 20 Z.to_nat). vm_compute. reflexivity.
  - replace (size (sample family_lines)) with 5%nat by (vm_compute; reflexivity). lia.
  - replace (size (sample family_lines)) with 5%nat by (vm_compute; reflexivity). lia.
Defined.

(** In the family view the service is written its own RSS and major
    faults and those of its two descendants. *)
Lemma scanProcesses_family :
  scanProcesses 12 6 family_lines 20 [service]
  = Some [setPageFaults (setCurrentRss service 1250) 26]
  /\ own_and_descendants rss 20 (sample family_lines) 30 = 1250
  /\ own_and_descendants majflt 20 (sample family_lines) 30 = 26.
Proof. repeat split; vm_compute; reflexivity. Qed.

(** *** When thrashingMost returns null *)

Lemma thrashingMost_loop (pl seen : list Process) (w l : Process) :
  worst_least seen w l ->
  exists w' l',
    fold_left thrashingMost_step pl (Some w, Some l) = (Some w', Some l')
    /\ worst_least (seen ++ pl) w' l'.
Proof.
  revert seen w l. induction pl as [|m pl IH]; intros seen w l Hinv.
  - exists w, l. rewrite app_nil_r. split; [reflexivity | exact Hinv].
  - destruct Hinv as (Hw & Hl & Hmin & Hmax). cbn [fold_left thrashingMost_step].
    replace (seen ++ m :: pl) with ((seen ++ [m]) ++ pl) by (rewrite <- app_assoc; reflexivity).
    destruct (Z.ltb_spec (recentPageFaults l) (recentPageFaults m)) as [Hlm|Hml].
    + (* worst becomes m; least stays *)
      destruct (Z.ltb_spec (recentPageFaults m) (recentPageFaults l)); [lia |].
      apply IH. repeat split.
      * apply elem_of_app. right. left.
      * apply elem_of_app. left. exact Hl.
      * intros q Hq. apply elem_of_app in Hq as [Hq|Hq]; [apply Hmin, Hq |].
        apply list_elem_of_singleton in Hq as ->. lia.
      * left. exact Hlm.
    + destruct (Z.ltb_spec (recentPageFaults m) (recentPageFaults l)) as [Hlt|Hge].
      * (* least becomes m; worst stays *)
        apply IH. repeat split.
        -- apply elem_of_app. left. exact Hw.
        -- apply elem_of_app. right. left.
        -- intros q Hq. apply elem_of_app in Hq as [Hq|Hq]; [specialize (Hmin q Hq); lia |].
           apply list_elem_of_singleton in Hq as ->. lia.
        -- destruct Hmax as [Hmax|Hmax]; [left; lia |].
           left. specialize (Hmax l Hl). lia.
      * (* neither changes *)
        apply IH. repeat split.
        -- apply elem_of_app. left. exact Hw.
        -- apply elem_of_app. left. exact Hl.
        -- intros q Hq. apply elem_of_app in Hq as [Hq|Hq]; [apply Hmin, Hq |].
           apply list_elem_of_singleton in Hq as ->. lia.
        -- destruct Hmax as [Hmax|Hmax]; [left; exact Hmax | right].
           intros q Hq. apply elem_of_app in Hq as [Hq|Hq]; [apply Hmax, Hq |].
           apply list_elem_of_singleton in Hq as ->. specialize (Hmax l Hl). lia.
Qed.

(** X1: on a registry that is not empty [thrashingMost] returns null
    exactly when all managed processes have the same number of recent
    page faults, that is, when the maximum equals the minimum. *)
Theorem thrashingMost_null_iff_all_equal (p : Process) (pl : list Process) :
  thrashingMost (p :: pl) = None
  <-> forall q, q ∈ p :: pl -> recentPageFaults q = recentPageFaults p.
Proof.
  unfold thrashingMost. cbn [fold_left thrashingMost_step].
  destruct (thrashingMost_loop pl [p] p p) as (w & l & -> & Hw & Hl & Hmin & Hmax).
  { split; [left |]. split; [left |]. split.
    - intros q Hq. apply list_elem_of_singleton in Hq as ->. lia.
    - right. intros q Hq. apply list_elem_of_singleton in Hq as ->. lia. }
  change ([p] ++ pl) with (p :: pl) in *.
  destruct (Z.leb_spec (recentPageFaults w) (recentPageFaults l)) as [Hle|Hlt].
  - split; [intros _ | reflexivity].
    destruct Hmax as [Hmax|Hmax]; [lia |].
    intros q Hq. pose proof (Hmin q Hq). pose proof (Hmax q Hq).
    pose proof (Hmin p (list_elem_of_here _ _)). pose proof (Hmax p (list_elem_of_here _ _)). lia.
  - split; [discriminate |]. intros Heq. exfalso.
    rewrite (Heq w Hw), (Heq l Hl) in Hlt. lia.
Qed.

(** *** The turns after a false verdict and after construction *)

Lemma no_kill_for_seven_turns_after_false_verdict_witness :
  killed (snd (cycle (repeat true 8) calm_turn)) = None
  /\ Forall (fun t' => sustained t' <> Some true /\ killed t' = None)
       (snd (run (fst (cycle (repeat true 8) calm_turn)) (repeat thrashing_turn 7))).
Proof.
  apply (no_kill_for_seven_turns_after_false_verdict (repeat true 8)
           (fst (cycle (repeat true 8) calm_turn)) calm_turn
           (snd (cycle (repeat true 8) calm_turn)) (repeat thrashing_turn 7)).
  - reflexivity.
  - vm_compute. reflexivity.
  - apply surjective_pairing.
  - simpl. lia.
Defined.

Lemma no_kill_in_first_six_turns_witness :
  Forall (fun t => sustained t <> Some true /\ killed t = None)
    (snd (run (ChoreKeeper (repeat true 8)) (repeat thrashing_turn 6))).
Proof.
  apply (no_kill_in_first_six_turns (repeat true 8) (repeat thrashing_turn 6)).
  - reflexivity.
  - simpl. lia.
Defined.

(* ================================================================== *)
(** * Further properties of the code *)

(** ** The selection policies *)

Lemma first_greatest_elem (score : Process -> Z) (pl : list Process) (w : Process) :
  first_greatest score pl w -> w ∈ pl /\ forall p, p ∈ pl -> score p <= score w.
Proof.
  intros (before & after & -> & Hb & Ha). split.
  - apply elem_of_app. right. left.
  - intros p Hp. apply elem_of_app in Hp as [Hp|Hp]; [specialize (Hb p Hp); lia |].
    apply elem_of_cons in Hp as [->|Hp]; [lia | exact (Ha p Hp)].
Qed.

Lemma first_least_elem (score : Process -> Z) (pl : list Process) (w : Process) :
  first_least score pl w -> w ∈ pl /\ forall p, p ∈ pl -> score w <= score p.
Proof.
  intros (before & after & -> & Hb & Ha). split.
  - apply elem_of_app. right. left.
  - intros p Hp. apply elem_of_app in Hp as [Hp|Hp]; [specialize (Hb p Hp); lia |].
    apply elem_of_cons in Hp as [->|Hp]; [lia | exact (Ha p Hp)].
Qed.

Lemma first_greatest_later (score : Process -> Z) (seen : list Process) (w m : Process) :
  first_greatest score seen w -> score m <= score w -> first_greatest score (seen ++ [m]) w.
Proof.
  intros (before & after & -> & Hb & Ha) Hm.
  exists before, (after ++ [m]). split; [rewrite <- app_assoc; reflexivity |].
  split; [exact Hb |]. intros p Hp. apply elem_of_app in Hp as [Hp|Hp]; [exact (Ha p Hp) |].
  apply list_elem_of_singleton in Hp as ->. exact Hm.
Qed.

Lemma first_greatest_new (score : Process -> Z) (seen : list Process) (m : Process) :
  (forall p, p ∈ seen -> score p < score m) -> first_greatest score (seen ++ [m]) m.
Proof.
  intros H. exists seen, []. split; [reflexivity |]. split; [exact H |].
  intros p Hp. inversion Hp.
Qed.

Lemma first_least_later (score : Process -> Z) (seen : list Process) (w m : Process) :
  first_least score seen w -> score w <= score m -> first_least score (seen ++ [m]) w.
Proof.
  intros (before & after & -> & Hb & Ha) Hm.
  exists before, (after ++ [m]). split; [rewrite <- app_assoc; reflexivity |].
  split; [exact Hb |]. intros p Hp. apply elem_of_app in Hp as [Hp|Hp]; [exact (Ha p Hp) |].
  apply list_elem_of_singleton in Hp as ->. exact Hm.
Qed.

Lemma first_least_new (score : Process -> Z) (seen : list Process) (m : Process) :
  (forall p, p ∈ seen -> score m < score p) -> first_least score (seen ++ [m]) m.
Proof.
  intros H. exists seen, []. split; [reflexivity |]. split; [exact H |].
  intros p Hp. inversion Hp.
Qed.

(** The loop shared by [furthestOverPeak] and [furthestOverExpected],
    started with [p] after the processes [seen]. *)
Lemma furthest_loop (excess : Process -> Z) (pl seen : list Process) (p : option Process) :
  match p with
  | None => forall q, q ∈ seen -> excess q <= 0
  | Some w => 0 < excess w /\ first_greatest excess seen w
  end ->
  match fold_left (fun p m =>
                     let over := excess m in
                     if (0 <? over) && beats over p excess then Some m else p)
                  pl p with
  | None => forall q, q ∈ seen ++ pl -> excess q <= 0
  | Some w => 0 < excess w /\ first_greatest excess (seen ++ pl) w
  end.
Proof.
  revert seen p. induction pl as [|m pl IH]; intros seen p Hinv.
  - rewrite app_nil_r. exact Hinv.
  - cbn [fold_left].
    replace (seen ++ m :: pl) with ((seen ++ [m]) ++ pl) by (rewrite <- app_assoc; reflexivity).
    apply IH. cbv zeta.
    destruct (Z.ltb_spec 0 (excess m)) as [Hpos|Hneg]; cbn [andb].
    + destruct p as [w|]; cbn [beats].
      * destruct Hinv as [Hw Hfg].
        destruct (Z.ltb_spec (excess w) (excess m)) as [Hlt|Hge].
        -- split; [exact Hpos |]. apply first_greatest_new.
           intros q Hq. destruct (first_greatest_elem _ _ _ Hfg) as [_ Hall].
           specialize (Hall q Hq). lia.
        -- split; [exact Hw |]. apply first_greatest_later; assumption.
      * split; [exact Hpos |]. apply first_greatest_new.
        intros q Hq. specialize (Hinv q Hq). lia.
    + destruct p as [w|].
      * destruct Hinv as [Hw Hfg]. split; [exact Hw |].
        apply first_greatest_later; [exact Hfg | lia].
      * intros q Hq. apply elem_of_app in Hq as [Hq|Hq]; [exact (Hinv q Hq) |].
        apply list_elem_of_singleton in Hq as ->. exact Hneg.
Qed.

(** X4: [furthestOverPeak] returns null exactly when no managed process
    has a positive excess of current RSS over its declared peak (the
    excess being the [int] difference); otherwise it returns the first
    process whose excess is the greatest, and that excess is positive. *)
Theorem furthestOverPeak_first_greatest (pl : list Process) :
  match furthestOverPeak pl with
  | None => forall q, q ∈ pl -> over_peak q <= 0
  | Some w => 0 < over_peak w /\ first_greatest over_peak pl w
  end.
Proof.
  unfold furthestOverPeak.
  apply (furthest_loop over_peak pl [] None). intros q Hq. inversion Hq.
Qed.

(** X5: [furthestOverExpected] does the same with the declared typical
    memory in place of the peak. *)
Theorem furthestOverExpected_first_greatest (pl : list Process) :
  match furthestOverExpected pl with
  | None => forall q, q ∈ pl -> over_typical q <= 0
  | Some w => 0 < over_typical w /\ first_greatest over_typical pl w
  end.
Proof.
  unfold furthestOverExpected.
  apply (furthest_loop over_typical pl [] None). intros q Hq. inversion Hq.
Qed.

Lemma biggest_loop (pl seen : list Process) (p : option Process) :
  match p with
  | None => seen = []
  | Some w => first_greatest currentRss seen w
  end ->
  match fold_left (fun p m =>
                     match p with
                     | None => Some m
                     | Some q => if currentRss q <? currentRss m then Some m else p
                     end)
                  pl p with
  | None => seen ++ pl = []
  | Some w => first_greatest currentRss (seen ++ pl) w
  end.
Proof.
  revert seen p. induction pl as [|m pl IH]; intros seen p Hinv.
  - rewrite app_nil_r. exact Hinv.
  - cbn [fold_left].
    replace (seen ++ m :: pl) with ((seen ++ [m]) ++ pl) by (rewrite <- app_assoc; reflexivity).
    apply IH. destruct p as [w|].
    + destruct (Z.ltb_spec (currentRss w) (currentRss m)) as [Hlt|Hge].
      * apply first_greatest_new. intros q Hq.
        destruct (first_greatest_elem _ _ _ Hinv) as [_ Hall]. specialize (Hall q Hq). lia.
      * apply first_greatest_later; assumption.
    + subst seen. apply first_greatest_new. intros q Hq. inversion Hq.
Qed.

Lemma biggest_elem (pl : list Process) :
  match biggest pl with
  | None => pl = []
  | Some w => w ∈ pl
  end.
Proof.
  unfold biggest. pose proof (biggest_loop pl [] None eq_refl) as H. cbn [app] in H.
  destruct (fold_left _ pl None) as [w|]; [| exact H].
  apply (first_greatest_elem _ _ _ H).
Qed.

(** X7: [biggest] returns null only on an empty registry; otherwise it
    returns the first process with the greatest current RSS. *)
Theorem biggest_first_greatest (pl : list Process) :
  match biggest pl with
  | None => pl = []
  | Some w => first_greatest currentRss pl w
  end.
Proof. unfold biggest. apply (biggest_loop pl [] None). reflexivity. Qed.

Lemma leastValuable_loop (pl seen : list Process) (mx mn : option Process) :
  match mx, mn with
  | Some x, Some y => first_greatest worth seen x /\ first_least worth seen y
  | None, None => seen = []
  | _, _ => False
  end ->
  match fold_left (fun '(max, min) m =>
                     let max := match max with
                                | None => Some m
                                | Some x => if value (spec x) <? value (spec m) then Some m else max
                                end in
                     let min := match min with
                                | None => Some m
                                | Some x => if value (spec m) <? value (spec x) then Some m else min
                                end in
                     (max, min))
                  pl (mx, mn) with
  | (Some x, Some y) => first_greatest worth (seen ++ pl) x /\ first_least worth (seen ++ pl) y
  | (None, None) => seen ++ pl = []
  | _ => False
  end.
Proof.
  revert seen mx mn. induction pl as [|m pl IH]; intros seen mx mn Hinv.
  - rewrite app_nil_r. destruct mx, mn; exact Hinv.
  - replace (seen ++ m :: pl) with ((seen ++ [m]) ++ pl) by (rewrite <- app_assoc; reflexivity).
    destruct mx as [x|], mn as [y|]; try contradiction;
      cbn [fold_left]; cbv beta iota zeta; apply IH.
    + destruct Hinv as [Hx Hy]. fold (worth x) (worth y) (worth m).
      destruct (first_greatest_elem _ _ _ Hx) as [_ Hmax].
      destruct (first_least_elem _ _ _ Hy) as [_ Hmin].
      assert (Hgreatest : first_greatest worth (seen ++ [m])
                            (if worth x <? worth m then m else x)).
      { destruct (Z.ltb_spec (worth x) (worth m)).
        - apply first_greatest_new. intros q Hq. specialize (Hmax q Hq). lia.
        - apply first_greatest_later; assumption. }
      assert (Hleast : first_least worth (seen ++ [m])
                         (if worth m <? worth y then m else y)).
      { destruct (Z.ltb_spec (worth m) (worth y)).
        - apply first_least_new. intros q Hq. specialize (Hmin q Hq). lia.
        - apply first_least_later; assumption. }
      destruct (worth x <? worth m), (worth m <? worth y); split; assumption.
    + subst seen. split.
      * apply first_greatest_new. intros q Hq. inversion Hq.
      * apply first_least_new. intros q Hq. inversion Hq.
Qed.

Lemma leastValuable_result (pl : list Process) :
  match leastValuable pl with
  | None => forall p q, p ∈ pl -> q ∈ pl -> worth p = worth q
  | Some w => first_least worth pl w /\ exists p, p ∈ pl /\ worth w < worth p
  end.
Proof.
  unfold leastValuable.
  pose proof (leastValuable_loop pl [] None None eq_refl) as H. cbn [app] in H.
  destruct (fold_left _ pl (None, None)) as [[x|] [y|]]; try contradiction.
  - destruct H as [Hx Hy]. fold (worth x) (worth y).
    destruct (first_greatest_elem _ _ _ Hx) as [Hxin Hmax].
    destruct (first_least_elem _ _ _ Hy) as [_ Hmin].
    destruct (Z.leb_spec (worth x) (worth y)).
    + intros p q Hp Hq.
      pose proof (Hmax p Hp). pose proof (Hmin p Hp).
      pose proof (Hmax q Hq). pose proof (Hmin q Hq). lia.
    + split; [exact Hy |]. exists x. split; [exact Hxin | lia].
  - subst pl. intros p q Hp. inversion Hp.
Qed.

(** X6: [leastValuable] returns null exactly when all managed processes
    have the same value (an empty registry included); otherwise it
    returns the first process with the least value, and some process is
    worth more. *)
Theorem leastValuable_first_least (pl : list Process) :
  match leastValuable pl with
  | None => forall p q, p ∈ pl -> q ∈ pl -> worth p = worth q
  | Some w => first_least worth pl w /\ exists p, p ∈ pl /\ worth w < worth p
  end.
Proof. exact (leastValuable_result pl). Qed.

Lemma thrashingMost_result (pl : list Process) :
  match thrashingMost pl with
  | None => forall p q, p ∈ pl -> q ∈ pl -> recentPageFaults p = recentPageFaults q
  | Some w =>
      w ∈ pl
      /\ exists l, l ∈ pl
                   /\ (forall q, q ∈ pl -> recentPageFaults l <= recentPageFaults q)
                   /\ recentPageFaults l < recentPageFaults w
  end.
Proof.
  destruct pl as [|p pl]; [intros p q Hp; inversion Hp |].
  unfold thrashingMost. cbn [fold_left thrashingMost_step].
  destruct (thrashingMost_loop pl [p] p p) as (w & l & -> & Hw & Hl & Hmin & Hmax).
  { split; [left |]. split; [left |]. split.
    - intros q Hq. apply list_elem_of_singleton in Hq as ->. lia.
    - right. intros q Hq. apply list_elem_of_singleton in Hq as ->. lia. }
  change ([p] ++ pl) with (p :: pl) in *.
  destruct (Z.leb_spec (recentPageFaults w) (recentPageFaults l)) as [Hle|Hlt].
  - destruct Hmax as [Hmax|Hmax]; [lia |].
    intros a b Ha Hb.
    pose proof (Hmin a Ha). pose proof (Hmax a Ha).
    pose proof (Hmin b Hb). pose proof (Hmax b Hb). lia.
  - split; [exact Hw |]. exists l. repeat split; assumption.
Qed.

(** X8: a process that [thrashingMost] returns is a managed process
    with strictly more recent page faults than the managed process with
    the fewest; when it returns null all managed processes have the
    same number. *)
Theorem thrashingMost_above_least (pl : list Process) :
  match thrashingMost pl with
  | None => forall p q, p ∈ pl -> q ∈ pl -> recentPageFaults p = recentPageFaults q
  | Some w =>
      w ∈ pl
      /\ exists l, l ∈ pl
                   /\ (forall q, q ∈ pl -> recentPageFaults l <= recentPageFaults q)
                   /\ recentPageFaults l < recentPageFaults w
  end.
Proof. exact (thrashingMost_result pl). Qed.

Lemma choose_result (pl : list Process) :
  match choose pl with
  | None => pl = []
  | Some w =>
      w ∈ pl
      /\ ((exists p, p ∈ pl /\ 0 < over_peak p) ->
          0 < over_peak w /\ first_greatest over_peak pl w)
      /\ ((forall p, p ∈ pl -> over_peak p <= 0) ->
          (exists p, p ∈ pl /\ 0 < over_typical p) ->
          0 < over_typical w /\ first_greatest over_typical pl w)
  end.
Proof.
  unfold choose.
  assert (Hpeak : match furthestOverPeak pl with
                  | None => forall q, q ∈ pl -> over_peak q <= 0
                  | Some w => 0 < over_peak w /\ first_greatest over_peak pl w
                  end).
  { unfold furthestOverPeak. apply (furthest_loop over_peak pl [] None).
    intros q Hq. inversion Hq. }
  assert (Htyp : match furthestOverExpected pl with
                 | None => forall q, q ∈ pl -> over_typical q <= 0
                 | Some w => 0 < over_typical w /\ first_greatest over_typical pl w
                 end).
  { unfold furthestOverExpected. apply (furthest_loop over_typical pl [] None).
    intros q Hq. inversion Hq. }
  destruct (furthestOverPeak pl) as [w|]; cbn [or_else].
  - destruct Hpeak as [Hpos Hfg]. split; [apply (first_greatest_elem _ _ _ Hfg) |].
    split; [intros _; split; assumption |].
    intros Hnone _. destruct (first_greatest_elem _ _ _ Hfg) as [Hin _].
    specialize (Hnone w Hin). lia.
  - assert (Hno : (exists p, p ∈ pl /\ 0 < over_peak p) -> False).
    { intros (p & Hp & Hpos). specialize (Hpeak p Hp). lia. }
    destruct (furthestOverExpected pl) as [w|]; cbn [or_else].
    + destruct Htyp as [Hpos Hfg]. split; [apply (first_greatest_elem _ _ _ Hfg) |].
      split; [intros H; destruct (Hno H) | intros _ _; split; assumption].
    + assert (Hno' : (exists p, p ∈ pl /\ 0 < over_typical p) -> False).
      { intros (p & Hp & Hpos). specialize (Htyp p Hp). lia. }
      pose proof (thrashingMost_result pl) as Htm.
      destruct (thrashingMost pl) as [w|]; cbn [or_else].
      { split; [apply Htm |]. split; [intros H; destruct (Hno H) |].
        intros _ H. destruct (Hno' H). }
      pose proof (leastValuable_result pl) as Hlv.
      destruct (leastValuable pl) as [w|]; cbn [or_else].
      { destruct Hlv as [Hfl _]. split; [apply (first_least_elem _ _ _ Hfl) |].
        split; [intros H; destruct (Hno H) |]. intros _ H. destruct (Hno' H). }
      pose proof (biggest_elem pl) as Hb.
      destruct (biggest pl) as [w|]; [| exact Hb].
      split; [exact Hb |]. split; [intros H; destruct (Hno H) |].
      intros _ H. destruct (Hno' H).
Qed.

(** X9: the cascade of [start] returns null only on an empty registry.
    What it returns is a managed process; when some process is over its
    peak it is the first of those furthest over it, and when none is
    over its peak but some are over their typical memory it is the
    first of those furthest over that. *)
Theorem choose_managed (pl : list Process) :
  match choose pl with
  | None => pl = []
  | Some w =>
      w ∈ pl
      /\ ((exists p, p ∈ pl /\ 0 < over_peak p) ->
          0 < over_peak w /\ first_greatest over_peak pl w)
      /\ ((forall p, p ∈ pl -> over_peak p <= 0) ->
          (exists p, p ∈ pl /\ 0 < over_typical p) ->
          0 < over_typical w /\ first_greatest over_typical pl w)
  end.
Proof. exact (choose_result pl). Qed.

(** ** The turns of the loop *)

Lemma all_below_intro (n : nat) (w : list bool) :
  (forall j, (j < n)%nat -> slot w j = true) -> all_below n w = true.
Proof.
  induction n as [|n IH]; intros H; simpl; [reflexivity |].
  rewrite (H n) by lia. simpl. apply IH. intros j Hj. apply H. lia.
Qed.

Lemma isThrashing_shifted (b : bool) (w : list bool) :
  isThrashing (b :: take 7 w) = true <-> b = true /\ streak 7 w.
Proof.
  split.
  - intros H. pose proof (all_below_slot 8 _ H) as Hs. split.
    + exact (Hs 0%nat ltac:(lia)).
    + intros j Hj. rewrite <- (slot_shifted b) by exact Hj. apply Hs. lia.
  - intros [-> Hs]. apply all_below_intro. intros [|j] Hj; [reflexivity |].
    rewrite slot_shifted by lia. apply Hs. lia.
Qed.

Lemma cycle_outcome (w : list bool) (c : cycle_input) :
  length w = 8%nat ->
  cycle w c =
    match momentary c with
    | None => (w, {| sustained := None; killed := None |})
    | Some b =>
        if isThrashing (b :: take 7 w) then
          match choose (processes c) with
          | Some jesus =>
              (false :: take 7 w,
               {| sustained := Some true; killed := Some (process_pid jesus) |})
          | None => (b :: take 7 w, {| sustained := Some true; killed := None |})
          end
        else (b :: take 7 w, {| sustained := Some false; killed := None |})
    end.
Proof.
  intros Hlen. unfold cycle, momentary.
  destruct (detectThrashing (vmstat c) w) as [w1|] eqn:E.
  - destruct (detectThrashing_window _ _ _ Hlen E) as (a & b & d & -> & ->).
    reflexivity.
  - unfold detectThrashing in E.
    destruct (readProcVmstat (vmstat c)) as [[[a b] d]|]; [discriminate E | reflexivity].
Qed.

Lemma cycle_length (w : list bool) (c : cycle_input) :
  length w = 8%nat -> length (fst (cycle w c)) = 8%nat.
Proof.
  intros Hlen. rewrite cycle_outcome by exact Hlen.
  destruct (momentary c) as [b|]; [| exact Hlen].
  destruct (isThrashing _); [destruct (choose _) |]; cbn [fst length];
    rewrite length_take; lia.
Qed.

(** X10: a turn issues a kill exactly when the momentary verdict is
    true, the seven most recent slots of the window hold true and the
    registry is not empty; the pid it passes to kill is the pid of a
    managed process. *)
Theorem kill_iff_sustained_and_managed (w : list bool) (c : cycle_input) :
  length w = 8%nat ->
  (is_Some (killed (snd (cycle w c)))
   <-> momentary c = Some true /\ streak 7 w /\ processes c <> [])
  /\ (forall k, killed (snd (cycle w c)) = Some k ->
                exists p, p ∈ processes c /\ process_pid p = k).
Proof.
  intros Hlen. rewrite cycle_outcome by exact Hlen.
  pose proof (choose_result (processes c)) as Hch.
  destruct (momentary c) as [b|].
  - pose proof (isThrashing_shifted b w) as Hthr.
    destruct (isThrashing (b :: take 7 w)).
    + destruct (proj1 Hthr eq_refl) as [-> Hs].
      destruct (choose (processes c)) as [jesus|]; cbn [snd killed].
      * destruct Hch as [Hin _]. split.
        -- split; [intros _ | intros _; eexists; reflexivity].
           split; [reflexivity |]. split; [exact Hs |].
           intros Hnil. rewrite Hnil in Hin. inversion Hin.
        -- intros k [= <-]. exists jesus. split; [exact Hin | reflexivity].
      * split; [| intros k Hk; discriminate Hk].
        split; [intros [x Hx]; discriminate Hx |].
        intros (_ & _ & Hne). contradiction.
    + cbn [snd killed]. split; [| intros k Hk; discriminate Hk].
      split; [intros [x Hx]; discriminate Hx |].
      intros ([= ->] & Hs & _).
      assert (false = true) by (apply Hthr; split; [reflexivity | exact Hs]).
      discriminate.
  - cbn [snd killed]. split; [| intros k Hk; discriminate Hk].
    split; [intros [x Hx]; discriminate Hx | intros (Hm & _); discriminate Hm].
Qed.

Lemma kill_iff_sustained_and_managed_witness :
  length (repeat true 8) = 8%nat
  /\ ((is_Some (killed (snd (cycle (repeat true 8) thrashing_turn)))
       <-> momentary thrashing_turn = Some true /\ streak 7 (repeat true 8)
           /\ processes thrashing_turn <> [])
      /\ (forall k, killed (snd (cycle (repeat true 8) thrashing_turn)) = Some k ->
                    exists p, p ∈ processes thrashing_turn /\ process_pid p = k)).
Proof.
  split; [reflexivity |].
  apply (kill_iff_sustained_and_managed (repeat true 8) thrashing_turn). reflexivity.
Defined.

Lemma run_sustained (cs : list cycle_input) (k : nat) (w : list bool) :
  length w = 8%nat -> streak k w -> (k <= 7)%nat -> (8 <= k + length cs)%nat ->
  Forall (fun c => momentary c = Some true /\ processes c <> []) cs ->
  Exists (fun t => is_Some (killed t)) (snd (run w cs)).
Proof.
  revert k w. induction cs as [|c cs IH]; intros k w Hlen Hs Hk Hn Hall.
  - simpl in Hn. lia.
  - apply Forall_cons in Hall as [[Hm Hne] Hall]. cbn [run].
    pose proof (cycle_length w c Hlen) as Hlen'.
    pose proof (cycle_outcome w c Hlen) as Hc. rewrite Hm in Hc.
    pose proof (choose_result (processes c)) as Hch.
    destruct (cycle w c) as [w1 t]. cbn [fst] in Hlen'.
    destruct (run w1 cs) as [final ts] eqn:Hrun. cbn [snd].
    pose proof (isThrashing_shifted true w) as Hthr.
    destruct (isThrashing (true :: take 7 w)).
    + destruct (choose (processes c)) as [jesus|]; [| contradiction].
      injection Hc as _ ->. apply Exists_cons_hd. eexists. reflexivity.
    + injection Hc as -> ->. apply Exists_cons_tl.
      assert (Hlt : (k < 7)%nat).
      { destruct (decide (k = 7%nat)) as [->|]; [| lia].
        assert (false = true) by (apply Hthr; split; [reflexivity | exact Hs]).
        discriminate. }
      specialize (IH (S k) (true :: take 7 w) Hlen').
      rewrite Hrun in IH. apply IH; [| lia | simpl in Hn; lia | exact Hall].
      intros [|j] Hj; [reflexivity |].
      rewrite slot_shifted by lia. apply Hs. lia.
Qed.

(** X11: from any window, eight consecutive turns in each of which the
    momentary verdict is true and the registry is not empty include a
    turn in which a kill is issued. *)
Theorem kill_within_eight_thrashing_turns (w : list bool) (cs : list cycle_input) :
  length w = 8%nat -> length cs = 8%nat ->
  Forall (fun c => momentary c = Some true /\ processes c <> []) cs ->
  Exists (fun t => is_Some (killed t)) (snd (run w cs)).
Proof.
  intros Hlen Hcs Hall. apply (run_sustained cs 0 w); try assumption; try lia.
  intros j Hj. lia.
Qed.

Lemma kill_within_eight_thrashing_turns_witness :
  length (repeat false 8) = 8%nat /\ length (repeat thrashing_turn 8) = 8%nat
  /\ Forall (fun c => momentary c = Some true /\ processes c <> [])
            (repeat thrashing_turn 8)
  /\ Exists (fun t => is_Some (killed t))
            (snd (run (repeat false 8) (repeat thrashing_turn 8))).
Proof.
  assert (Hall : Forall (fun c => momentary c = Some true /\ processes c <> [])
                   (repeat thrashing_turn 8)).
  { cbn [repeat]. repeat (constructor; [split; [reflexivity | discriminate] |]).
    constructor. }
  split; [reflexivity |]. split; [reflexivity |]. split; [exact Hall |].
  apply (kill_within_eight_thrashing_turns (repeat false 8) (repeat thrashing_turn 8));
    [reflexivity | reflexivity | exact Hall].
Defined.

Lemma take_app_take {A : Type} (n m : nat) (l w : list A) :
  (n <= length l + m)%nat -> take n (l ++ take m w) = take n (l ++ w).
Proof.
  revert n. induction l as [|a l IH]; intros n Hn; cbn [app length] in *.
  - rewrite take_take. f_equal. lia.
  - destruct n as [|n]; [reflexivity |]. cbn [take]. f_equal. apply IH. lia.
Qed.

Lemma cycle_recorded (w : list bool) (c : cycle_input) :
  length w = 8%nat ->
  forall l, take 8 (l ++ fst (cycle w c))
            = take 8 ((l ++ recorded c (snd (cycle w c))) ++ w).
Proof.
  intros Hlen l. rewrite cycle_outcome by exact Hlen. unfold recorded.
  destruct (momentary c) as [b|]; [| cbn [fst]; rewrite app_nil_r; reflexivity].
  assert (Hshift : forall v, take 8 (l ++ v :: take 7 w) = take 8 ((l ++ [v]) ++ w)).
  { intros v. rewrite (cons_middle v l (take 7 w)), app_assoc.
    apply take_app_take. rewrite length_app. simpl. lia. }
  destruct (isThrashing (b :: take 7 w)); [destruct (choose (processes c)) |];
    cbn [fst snd killed]; apply Hshift.
Qed.

(** X12: after any sequence of turns the window holds, most recent
    first, the eight last values recorded: a turn that cannot read
    /proc/vmstat records nothing, a turn that kills records false, any
    other turn its momentary verdict; what the window held before fills
    the remaining slots. *)
Theorem window_holds_last_eight_recorded (w : list bool) (cs : list cycle_input) :
  length w = 8%nat ->
  fst (run w cs) = take 8 (newest_first cs (snd (run w cs)) ++ w).
Proof.
  revert w. induction cs as [|c cs IH]; intros w Hlen.
  - cbn. rewrite take_ge by lia. reflexivity.
  - cbn [run].
    pose proof (cycle_length w c Hlen) as Hlen'.
    pose proof (cycle_recorded w c Hlen) as Hrec.
    destruct (cycle w c) as [w1 t]. cbn [fst snd] in Hlen', Hrec.
    specialize (IH w1 Hlen').
    destruct (run w1 cs) as [final ts]. cbn [fst snd newest_first] in *.
    rewrite IH. apply Hrec.
Qed.

Lemma window_holds_last_eight_recorded_witness :
  length (repeat true 8) = 8%nat
  /\ fst (run (repeat true 8) [thrashing_turn; calm_turn])
     = take 8 (newest_first [thrashing_turn; calm_turn]
                 (snd (run (repeat true 8) [thrashing_turn; calm_turn]))
               ++ repeat true 8).
Proof.
  split; [reflexivity |].
  apply (window_holds_last_eight_recorded (repeat true 8) [thrashing_turn; calm_turn]).
  reflexivity.
Defined.

(** ** Hiding the executable name *)

Lemma find_lparen_split (line : list ascii) :
  line = (find_lparen line).1 ++ (find_lparen line).2.
Proof.
  induction line as [|c line IH]; simpl; [reflexivity |].
  destruct (bool_decide (c = lparen)); [reflexivity |].
  destruct (find_lparen line) as [before from]. simpl in *. f_equal. exact IH.
Qed.

Lemma zero_name_split (n : nat) (from : list ascii) :
  (length from <= n)%nat ->
  exists name,
    from = name ++ (zero_name from).2
    /\ (zero_name from).1 = repeat zero (length name).
Proof.
  revert from. induction n as [|n IH]; intros from Hlen.
  - destruct from; [| simpl in Hlen; lia]. exists []. split; reflexivity.
  - destruct from as [|c rest]; [exists []; split; reflexivity |].
    simpl in Hlen. simpl.
    destruct (bool_decide (c = rparen)); [exists []; split; reflexivity |].
    destruct (bool_decide (c = backslash)).
    + destruct rest as [|c' rest']; [exists [c]; split; reflexivity |].
      simpl in Hlen. destruct (IH rest' ltac:(lia)) as (name & Hfrom & Hzs).
      destruct (zero_name rest') as [zs tail]. simpl in *.
      exists (c :: c' :: name). split; [rewrite Hfrom at 1; reflexivity |].
      rewrite Hzs. reflexivity.
    + destruct (IH rest ltac:(lia)) as (name & Hfrom & Hzs).
      destruct (zero_name rest) as [zs tail]. simpl in *.
      exists (c :: name). split; [rewrite Hfrom at 1; reflexivity |].
      rewrite Hzs. reflexivity.
Qed.

(** X13: [parseProcStat]'s overwriting of the executable name keeps the
    length of the line and changes no character to anything but '0'. *)
Theorem hide_filename_writes_only_zeros (line : list ascii) :
  Forall2 (fun c c' => c' = c \/ c' = zero) line (hide_filename line).
Proof.
  unfold hide_filename.
  pose proof (find_lparen_split line) as Hline.
  destruct (find_lparen line) as [before from]. cbn [fst snd] in Hline.
  destruct (zero_name_split (length from) from (le_n _)) as (name & Hfrom & Hzs).
  destruct (zero_name from) as [zs tail]. cbn [fst snd] in Hfrom, Hzs.
  rewrite Hline, Hfrom, Hzs.
  apply Forall2_app; [apply Forall_Forall2_diag, Forall_forall; intros; left; reflexivity |].
  apply Forall2_app.
  - clear. induction name as [|c name IH]; simpl; constructor;
      [right; reflexivity | exact IH].
  - destruct tail as [|c tail]; [constructor |]. simpl.
    destruct (bool_decide (c = rparen)).
    + constructor; [right; reflexivity |].
      apply Forall_Forall2_diag, Forall_forall. intros; left; reflexivity.
    + apply Forall_Forall2_diag, Forall_forall. intros; left; reflexivity.
Qed.

(** ** What the parser can return *)

Lemma split_tokens_no_delim (delim : ascii -> bool) (s cur : list ascii) :
  Forall (fun c => delim c = false) cur ->
  Forall (Forall (fun c => delim c = false)) (Text.split_tokens delim cur s).
Proof.
  revert cur. induction s as [|c s IH]; intros cur Hcur; simpl.
  - destruct cur; constructor; [apply Forall_rev, Hcur | constructor].
  - destruct (delim c) eqn:E.
    + destruct cur; [apply IH; constructor |].
      constructor; [apply Forall_rev, Hcur | apply IH; constructor].
    + apply IH. constructor; assumption.
Qed.

Lemma token_cast_nonneg (tok : list ascii) (v : Z) :
  Forall (fun c => Text.default_delim c = false) tok ->
  Text.lexical_cast_int tok = Some v -> 0 <= v.
Proof.
  unfold Text.lexical_cast_int.
  destruct tok as [|c ds]; [discriminate |].
  intros Htok. apply Forall_cons in Htok as [Hc _].
  assert (Hsign : (Text.code c =? 45) = false /\ (Text.code c =? 43) = false).
  { unfold Text.default_delim, Text.isspace, Text.ispunct in Hc.
    split; apply Z.eqb_neq; intros Hcode; rewrite Hcode in Hc; discriminate Hc. }
  destruct Hsign as [-> ->].
  destruct (Text.digits_value 0 (c :: ds)) as [w|] eqn:E; simpl; [| discriminate].
  destruct (w <=? Int.INT_MAX); [| discriminate].
  intros [= <-]. exact (digits_value_nonneg _ _ _ E ltac:(lia)).
Qed.

Lemma field_value_range (s : list ascii) (n : nat) :
  0 <= field_value (Text.tokenizer s) n <= Int.INT_MAX.
Proof.
  pose proof (field_value_fits (Text.tokenizer s) n) as [_ Hmax].
  split; [| exact Hmax].
  unfold field_value, field.
  destruct (Text.tokenizer s !! n) as [tok|] eqn:En; [| lia].
  destruct (Text.lexical_cast_int tok) as [v|] eqn:E; [| lia].
  apply (token_cast_nonneg tok v); [| exact E].
  pose proof (split_tokens_no_delim Text.default_delim s [] ltac:(constructor)) as Hall.
  rewrite Forall_forall in Hall. apply Hall.
  apply list_elem_of_lookup. exists n. exact En.
Qed.

Lemma parseProcStat_unsigned (line : list ascii) (r : RunningProcess) :
  parseProcStat line = Returned r -> unsigned_record r.
Proof.
  rewrite parseProcStat_fields.
  destruct (parse_failure line) as [[| |v]|]; try discriminate;
    intros [= <-]; unfold unsigned_record; cbn [pid ppid rss majflt RunningProcess_default];
    try (unfold Int.fits, Int.INT_MIN, Int.INT_MAX; lia).
  repeat split; try apply field_value_range; apply wrap_range.
Qed.

(** X14: every record of the view the directory loop builds is stored
    under its own pid; its pid, ppid and RSS are non-negative [int]s
    (the tokenizer drops the signs) and its major faults are an
    [int]. *)
Theorem sample_keyed_and_unsigned (stat_lines : list (list ascii)) (k : Z)
  (r : RunningProcess) :
  sample stat_lines !! k = Some r -> pid r = k /\ unsigned_record r.
Proof.
  unfold sample.
  assert (H : forall observed,
             (forall k r, observed !! k = Some r -> pid r = k /\ unsigned_record r) ->
             forall k r, fold_left observe stat_lines observed !! k = Some r ->
                         pid r = k /\ unsigned_record r).
  { induction stat_lines as [|line lines IH]; intros observed Hinv; simpl; [exact Hinv |].
    apply IH. unfold observe.
    destruct (parseProcStat line) as [r'|] eqn:E; [| exact Hinv].
    intros k' r''. rewrite lookup_insert. case_decide as Hk.
    - intros [= <-]. split; [exact Hk | exact (parseProcStat_unsigned _ _ E)].
    - apply Hinv. }
  apply H. intros k' r' Hk. rewrite lookup_empty in Hk. discriminate Hk.
Qed.

Lemma sample_keyed_and_unsigned_witness :
  sample family_lines !! 31
  = Some {| pid := 31; ppid := 30; majflt := 4; rss := 200 |}
  /\ unsigned_record {| pid := 31; ppid := 30; majflt := 4; rss := 200 |}.
Proof.
  assert (Hread : sample family_lines !! 31
                  = Some {| pid := 31; ppid := 30; majflt := 4; rss := 200 |})
    by (vm_compute; reflexivity).
  split; [exact Hread |].
  apply (sample_keyed_and_unsigned family_lines 31 _ Hread).
Defined.

(** ** The counters read from /proc/vmstat *)

Lemma readProcVmstat_line_sets (counters : Z * Z * Z) (line n v : list ascii)
  (rest : list (list ascii)) (x : Z) :
  Text.space_tokenizer line = n :: v :: rest ->
  Text.lexical_cast_int v = Some x ->
  exists counters',
    readProcVmstat_line counters line = Returned counters'
    /\ (n = Text.str "nr_free_pages" -> counters'.1.1 = x)
    /\ (n = Text.str "pgmajfault" -> counters'.1.2 = x)
    /\ (n = Text.str "pgpgout" -> counters'.2 = x).
Proof.
  intros Htok Hv. unfold readProcVmstat_line.
  destruct line as [|c line]; [discriminate Htok |].
  rewrite Htok. unfold cast_int. simpl. rewrite Hv. simpl.
  destruct counters as [[a b] d]. eexists. split; [reflexivity |].
  repeat split; intros ->; reflexivity.
Qed.

(** X15: in a sample that [readProcVmstat] returns, each counter holds
    the value of the last line that bears its name: a line with a name
    and an integer value sets the counter of that name, and the lines
    after it that bear other names leave it alone. *)
Theorem readProcVmstat_last_line_wins
  (pre post : list (list ascii)) (line n v : list ascii) (rest : list (list ascii))
  (x : Z) (counters : Z * Z * Z) :
  Text.space_tokenizer line = n :: v :: rest ->
  Text.lexical_cast_int v = Some x ->
  unnamed n post ->
  readProcVmstat (pre ++ line :: post) = Returned counters ->
  (n = Text.str "nr_free_pages" -> counters.1.1 = x)
  /\ (n = Text.str "pgmajfault" -> counters.1.2 = x)
  /\ (n = Text.str "pgpgout" -> counters.2 = x).
Proof.
  intros Htok Hv Hpost. unfold readProcVmstat. rewrite for_each_app.
  destruct (for_each readProcVmstat_line (0, 0, 0) pre) as [c0|]; [| discriminate].
  cbn [mbind result_bind for_each].
  destruct (readProcVmstat_line_sets c0 line n v rest x Htok Hv)
    as (c1 & -> & Ha & Hb & Hc).
  cbn [mbind result_bind]. intros Hrest.
  destruct (for_each_unnamed _ _ _ Hrest) as (Ha' & Hb' & Hc').
  repeat split; intros Hn; subst n.
  - rewrite (Ha' Hpost). apply Ha. reflexivity.
  - rewrite (Hb' Hpost). apply Hb. reflexivity.
  - rewrite (Hc' Hpost). apply Hc. reflexivity.
Qed.

Lemma readProcVmstat_last_line_wins_witness :
  readProcVmstat ([Text.str "pgpgout 7"; Text.str "pgmajfault 2"]
                    ++ Text.str "pgpgout 9" :: [Text.str "nr_free_pages 100"])
  = Returned (100, 2, 9)
  /\ ((Text.str "pgpgout" = Text.str "nr_free_pages" -> (100, 2, 9).1.1 = 9)
      /\ (Text.str "pgpgout" = Text.str "pgmajfault" -> (100, 2, 9).1.2 = 9)
      /\ (Text.str "pgpgout" = Text.str "pgpgout" -> (100, 2, 9).2 = 9)).
Proof.
  assert (Hread : readProcVmstat ([Text.str "pgpgout 7"; Text.str "pgmajfault 2"]
                                    ++ Text.str "pgpgout 9" :: [Text.str "nr_free_pages 100"])
                  = Returned (100, 2, 9)) by (vm_compute; reflexivity).
  split; [exact Hread |].
  apply (readProcVmstat_last_line_wins
           [Text.str "pgpgout 7"; Text.str "pgmajfault 2"] [Text.str "nr_free_pages 100"]
           (Text.str "pgpgout 9") (Text.str "pgpgout") (Text.str "9") [] 9 (100, 2, 9)).
  - vm_compute. reflexivity.
  - vm_compute. reflexivity.
  - constructor; [| constructor]. vm_compute. intros H. discriminate H.
  - exact Hread.
Defined.

(** ** Where the walk ends *)

(** X16: whenever the ancestry walk returns, it returns the pid at the
    end of the chain of parent links from the pid it started at; the
    only entry [operator[]] can have created is the one of that pid;
    and more evaluations of the loop condition give the same result.
    No assumption on the view is needed. *)
Theorem walk_returns_end_of_chain (me : Z) (fuel : nat) (observed observed' : gmap Z RunningProcess)
  (k m : Z) :
  walk fuel me observed k = Some (observed', m) ->
  rtc (parent me observed) k m
  /\ halting me observed m = true
  /\ observed' = (if m =? 0 then observed else touch observed m)
  /\ forall fuel', (fuel <= fuel')%nat -> walk fuel' me observed k = Some (observed', m).
Proof.
  revert k. induction fuel as [|fuel IH]; intros k; [discriminate |].
  rewrite walk_unfold. destruct (halting me observed k) eqn:E.
  - intros [= <- <-]. split; [apply rtc_refl |]. split; [exact E |].
    split; [reflexivity |].
    intros [|fuel'] Hf; [lia |]. rewrite walk_unfold, E. reflexivity.
  - intros H. destruct (IH _ H) as (Hrtc & Hm & Hobs & Hmore).
    split; [eapply rtc_l; [split; [exact E | reflexivity] | exact Hrtc] |].
    split; [exact Hm |]. split; [exact Hobs |].
    intros [|fuel'] Hf; [lia |]. rewrite walk_unfold, E. apply Hmore. lia.
Qed.

Lemma walk_returns_end_of_chain_witness :
  walk 3 20 family_view 32 = Some (family_view, 30)
  /\ rtc (parent 20 family_view) 32 30
  /\ halting 20 family_view 30 = true.
Proof.
  assert (Hwalk : walk 3 20 family_view 32 = Some (family_view, 30))
    by (vm_compute; reflexivity).
  split; [exact Hwalk |].
  destruct (walk_returns_end_of_chain 20 3 family_view family_view 32 30 Hwalk)
    as (Hrtc & Hm & _).
  split; [exact Hrtc | exact Hm].
Defined.

(** ** What the rollup leaves alone *)

Lemma sound_view_keyed (V : gmap Z RunningProcess) :
  sound_view V -> forall k r, V !! k = Some r -> pid r = k.
Proof. intros Hs k r H. exact (proj1 (Hs k r H)). Qed.

Lemma sound_view_fits (V : gmap Z RunningProcess) :
  sound_view V ->
  forall k r, V !! k = Some r -> Int.fits (rss r) /\ Int.fits (majflt r).
Proof. intros Hs k r H. exact (proj2 (Hs k r H)). Qed.

(** X17: on a view without a cycle the rollup ends and leaves in the
    map every sampled entry, with the pid and the ppid it was sampled
    with; and a record that has a parent link the walk follows is left
    exactly as sampled: what lies below it is added to the end of its
    chain only. *)
Theorem rollup_keeps_links_and_inner_records (me : Z) (V : gmap Z RunningProcess)
  (rounds fuel : nat) :
  sound_view V -> acyclic me V ->
  (2 * size V + 2 <= rounds)%nat -> (size V < fuel)%nat ->
  exists observed',
    rollup rounds fuel me V = Some observed'
    /\ same_links V observed'
    /\ (forall k, is_Some (V !! k) -> is_Some (observed' !! k))
    /\ (forall k, halting me V k = false -> observed' !!! k = V !!! k).
Proof.
  intros Hsound Hacyc Hrounds Hfuel. unfold rollup.
  destruct (rollup_from_rolled me V Hacyc (sound_view_keyed V Hsound) rounds fuel V
              (begin_key V) (rolled_begin me V (sound_view_fits V Hsound)) Hfuel)
    as (obs' & Hroll & Hrolled).
  { pose proof (turns_left_bound V (begin_key V)). lia. }
  exists obs'. split; [exact Hroll |].
  split; [exact (rolled_links _ _ _ _ Hrolled) |].
  split; [exact (rolled_keeps _ _ _ _ Hrolled) |].
  intros k Hk.
  destruct (rolled_links _ _ _ _ Hrolled k) as [Hpid Hppid].
  pose proof (rolled_rss _ _ _ _ Hrolled k) as Hrss.
  pose proof (rolled_majflt _ _ _ _ Hrolled k) as Hmaj.
  rewrite (attributed_not_root me V _ _ _ Hk), Z.add_0_r in Hrss.
  rewrite (attributed_not_root me V _ _ _ Hk), Z.add_0_r in Hmaj.
  destruct (fits_sampled V (sound_view_fits V Hsound) k) as [Hfr Hfm].
  rewrite (wrap_fits _ Hfr) in Hrss. rewrite (wrap_fits _ Hfm) in Hmaj.
  destruct (obs' !!! k), (V !!! k). simpl in *. congruence.
Qed.

Lemma rollup_keeps_links_and_inner_records_witness :
  exists observed',
    rollup 12 6 20 family_view = Some observed'
    /\ same_links family_view observed'
    /\ (forall k, is_Some (family_view !! k) -> is_Some (observed' !! k))
    /\ (forall k, halting 20 family_view k = false -> observed' !!! k = family_view !!! k).
Proof.
  apply (rollup_keeps_links_and_inner_records 20 family_view 12 6).
  - apply sample_sound.
  - apply (ranked_acyclic 20 Z.to_nat). vm_compute. reflexivity.
  - replace (size family_view) with 5%nat by (vm_compute; reflexivity). lia.
  - replace (size family_view) with 5%nat by (vm_compute; reflexivity). lia.
Defined.

(** ** Managed processes the scan does not see *)

Lemma attributed_unseen (me : Z) (V : gmap Z RunningProcess) (field : RunningProcess -> Z)
  (js : list Z) (m : Z) :
  (forall k' r, V !! k' = Some r -> ppid r <> m) -> attributed me V field js m = 0.
Proof.
  intros Hno. induction js as [|j js IH]; simpl; [reflexivity |].
  rewrite IH, Z.add_0_r. unfold contribution.
  case_bool_decide as Hj; [| reflexivity].
  destruct Hj as [Hne Hroot].
  destruct (climb_linked me V _ _ _ Hroot) as [->|(k' & r & Hk' & Hr)];
    [contradiction | destruct (Hno k' r Hk' Hr)].
Qed.

(** X18: a scan writes zero RSS and zero page faults to every managed
    process whose pid the view does not hold and no sampled record
    names as its parent. *)
Theorem scanProcesses_unseen_pid_zero (stat_lines : list (list ascii)) (me : Z)
  (pl : list Process) (rounds fuel : nat) :
  acyclic me (sample stat_lines) ->
  (2 * size (sample stat_lines) + 2 <= rounds)%nat ->
  (size (sample stat_lines) < fuel)%nat ->
  exists pl',
    scanProcesses rounds fuel stat_lines me pl = Some pl'
    /\ Forall2 (fun p p' =>
                  process_pid p' = process_pid p
                  /\ (unseen (sample stat_lines) (process_pid p) ->
                      currentRss p' = 0 /\ pageFaults p' = 0))
               pl pl'.
Proof.
  intros Hacyc Hrounds Hfuel.
  pose proof (sample_sound stat_lines) as Hsound.
  destruct (rollup_totals me (sample stat_lines) Hacyc
              (sound_view_keyed _ Hsound) (sound_view_fits _ Hsound)
              rounds fuel Hrounds Hfuel) as (obs' & Hroll & Htotals).
  unfold scanProcesses. rewrite Hroll. cbn [mbind option_bind].
  eexists. split; [reflexivity |].
  rewrite (writeback_reads pl obs' obs' (fun x => eq_refl)).
  induction pl as [|p pl IH]; simpl; constructor; [| exact IH].
  split; [reflexivity |]. intros [Habsent Hno].
  destruct (Htotals (process_pid p)) as [Hrss Hmaj]. simpl.
  rewrite Hrss, Hmaj, !(attributed_unseen me _ _ _ _ Hno).
  rewrite (lookup_total_None _ _ Habsent). split; reflexivity.
Qed.

Lemma scanProcesses_unseen_pid_zero_witness :
  unseen (sample family_lines) (process_pid hog)
  /\ exists pl',
       scanProcesses 12 6 family_lines 20 [hog] = Some pl'
       /\ Forall2 (fun p p' =>
                     process_pid p' = process_pid p
                     /\ (unseen (sample family_lines) (process_pid p) ->
                         currentRss p' = 0 /\ pageFaults p' = 0))
                  [hog] pl'.
Proof.
  split.
  - split; [vm_compute; reflexivity |].
    assert (Hall : Forall (fun kr => ppid kr.2 <> process_pid hog)
                     (map_to_list (sample family_lines))).
    { vm_compute.
      repeat (constructor; [intros H; vm_compute in H; discriminate H |]). constructor. }
    rewrite Forall_forall in Hall. intros k' r Hk'.
    apply (Hall (k', r)), elem_of_map_to_list, Hk'.
  - apply (scanProcesses_unseen_pid_zero family_lines 20 [hog] 12 6).
    + apply (ranked_acyclic 20 Z.to_nat). vm_compute. reflexivity.
    + replace (size (sample family_lines)) with 5%nat by (vm_compute; reflexivity). lia.
    + replace (size (sample family_lines)) with 5%nat by (vm_compute; reflexivity). lia.
Defined.

(** ** The momentary verdict *)

(** X19: the momentary verdict is monotone in the three counters: a
    sample judged not thrashing stays so with more free pages, fewer
    major faults and fewer pages paged out. *)
Theorem oneBitOfThrashing_monotone (nr_free_pages pgmajfault pgpgout : Z)
  (nr_free_pages' pgmajfault' pgpgout' : Z) :
  nr_free_pages <= nr_free_pages' -> pgmajfault' <= pgmajfault -> pgpgout' <= pgpgout ->
  oneBitOfThrashing nr_free_pages pgmajfault pgpgout = false ->
  oneBitOfThrashing nr_free_pages' pgmajfault' pgpgout' = false.
Proof.
  unfold oneBitOfThrashing. intros Hf Hm Ho.
  destruct (Z.ltb_spec 5000 nr_free_pages), (Z.ltb_spec 5000 nr_free_pages'),
    (Z.ltb_spec 3 pgmajfault), (Z.ltb_spec 3 pgmajfault'),
    (Z.ltb_spec pgpgout 3), (Z.ltb_spec pgpgout' 3);
    intros Hverdict; try reflexivity; try discriminate Hverdict; lia.
Qed.

Lemma oneBitOfThrashing_monotone_witness :
  oneBitOfThrashing 100 3 2 = false /\ oneBitOfThrashing 4000 1 0 = false.
Proof.
  split; [reflexivity |].
  apply (oneBitOfThrashing_monotone 100 3 2 4000 1 0); [lia | lia | lia | reflexivity].
Defined.
